(** * Frame extraction and album retry: a shallow embedding

    The development follows [helpers/video/frame_extractor.py] and
    [helpers/downloaders/album_downloader.py].

    Python [float]s are IEEE-754 binary64 numbers.  The functions of
    [frame_extractor.py] are translated once, over an interface [PyFloat]
    listing the float operations they use, and the interface is
    inhabited twice:
    - [binary64]: Rocq's primitive floats, bit-exact and executable;
    - [exact]: the real numbers, i.e. the same program with every
      operation computed without rounding.
    Python [int]s are unbounded and are modelled by [Z]; where an int
    meets a float it is converted first, as Python does for arithmetic
    (for comparisons Python compares exactly, which is the same for the
    integers below 2^53 met here). *)

From Stdlib Require Import ZArith List Bool Lia Floats Reals Lra Zfloor.
From Stdlib Require Strings.String.
From Stdlib Require Decimal DecimalString DecimalNat Strings.Ascii.
From Stdlib Require Import Sorted Permutation.
Import ListNotations.

Set Warnings "-inexact-float,-notation-for-abbreviation".

#[local] Open Scope Z_scope.

(** ** The float operations used by the source *)

Class PyFloat (F : Type) : Type := {
  of_int : Z -> F;              (* float(i), the implicit int -> float coercion *)
  fadd : F -> F -> F;
  fsub : F -> F -> F;
  fmul : F -> F -> F;
  fdiv : F -> F -> F;
  flt : F -> F -> bool;         (* x < y *)
  fle : F -> F -> bool;         (* x <= y *)
  to_int : F -> option Z;       (* int(x): truncation; raises on nan and inf *)
  pyround : F -> option Z       (* round(x): nearest, ties to even; raises on nan and inf *)
}.

Section Literals.
Context {F : Type} `{PyFloat F}.

(** A decimal literal [n/d] denotes the float nearest to it, which is
    what a correctly rounded division of the two integers returns. *)
Definition decimal (n d : Z) : F := fdiv (of_int n) (of_int d).

Definition f0_01 : F := decimal 1 100.
Definition f0_99 : F := decimal 99 100.
Definition f0_5 : F := decimal 1 2.
Definition f0_4 : F := decimal 4 10.
Definition f0_3 : F := decimal 3 10.

(** [max(a, b)] and [min(a, b)] keep the first argument unless the
    second compares strictly beyond it. *)
Definition pymax (a b : F) : F := if flt a b then b else a.
Definition pymin (a b : F) : F := if flt b a then b else a.
End Literals.

(** ** Instance 1: binary64 *)

Module B64.

(** [float(z)]: the float nearest to [z] (Python raises on integers too
    large for a float, which are not met here). *)
Definition of_int (z : Z) : float :=
  SF2Prim (binary_normalize prec emax z 0 false).

(** The integer part of the dyadic number [m * 2^e], towards zero. *)
Definition trunc_dyadic (m : positive) (e : Z) : Z :=
  if 0 <=? e then Z.shiftl (Zpos m) e else Z.shiftr (Zpos m) (- e).

(** [m * 2^e] rounded to the nearest integer, ties to even. *)
Definition round_dyadic (m : positive) (e : Z) : Z :=
  if 0 <=? e then Z.shiftl (Zpos m) e
  else
    let q := Z.shiftr (Zpos m) (- e) in
    let r := Zpos m - Z.shiftl q (- e) in
    let half := Z.shiftl 1 (- e - 1) in
    match r ?= half with
    | Lt => q
    | Gt => q + 1
    | Eq => if Z.even q then q else q + 1
    end.

Definition signed (s : bool) (z : Z) : Z := if s then - z else z.

Definition to_int (x : float) : option Z :=
  match Prim2SF x with
  | S754_zero _ => Some 0
  | S754_finite s m e => Some (signed s (trunc_dyadic m e))
  | S754_infinity _ | S754_nan => None
  end.

Definition pyround (x : float) : option Z :=
  match Prim2SF x with
  | S754_zero _ => Some 0
  | S754_finite s m e => Some (signed s (round_dyadic m e))
  | S754_infinity _ | S754_nan => None
  end.

End B64.

#[export] Instance binary64 : PyFloat float := {
  of_int := B64.of_int;
  fadd := PrimFloat.add;
  fsub := PrimFloat.sub;
  fmul := PrimFloat.mul;
  fdiv := PrimFloat.div;
  flt := PrimFloat.ltb;
  fle := PrimFloat.leb;
  to_int := B64.to_int;
  pyround := B64.pyround
}.

(** ** Instance 2: exact arithmetic *)

Module Exact.

Definition Rltb (x y : R) : bool := if Rlt_dec x y then true else false.
Definition Rleb (x y : R) : bool := if Rle_dec x y then true else false.

Definition trunc (x : R) : Z := if Rle_dec 0 x then Zfloor x else Zceil x.

Definition round_half_even (x : R) : Z :=
  let f := Zfloor x in
  let r := (x - IZR f)%R in
  if Rlt_dec r (1 / 2) then f
  else if Rlt_dec (1 / 2) r then f + 1
  else if Z.even f then f else f + 1.

(** [math.log10] on the reals. *)
Definition log10 (x : R) : R := (ln x / ln 10)%R.

End Exact.

#[export] Instance exact : PyFloat R := {
  of_int := IZR;
  fadd := Rplus;
  fsub := Rminus;
  fmul := Rmult;
  fdiv := Rdiv;
  flt := Exact.Rltb;
  fle := Exact.Rleb;
  to_int := fun x => Some (Exact.trunc x);
  pyround := fun x => Some (Exact.round_half_even x)
}.

(** What the proofs need of [<] and [<=]: both hold of binary64 (nan
    compares false with everything) and of the reals.  A value [x] with
    [x <= x] is a number, i.e. not nan. *)
Class PyFloatOrder (F : Type) `{PyFloat F} : Prop := {
  flt_asym : forall x y, flt x y = true -> flt y x = false;
  flt_trans : forall x y z, flt x y = true -> flt y z = true -> flt x z = true;
  fle_total : forall x y,
    fle x x = true -> fle y y = true -> flt x y = false -> fle y x = true
}.

(** ** [frame_extractor.py] *)

(** Python sequence helpers. *)

(** [range(n)] *)
Definition range (n : Z) : list Z := map Z.of_nat (seq 0 (Z.to_nat n)).

(** [l[:n]], a negative [n] counting from the end of the list. *)
Definition slice_to {A : Type} (l : list A) (n : Z) : list A :=
  if n <? 0 then firstn (Z.to_nat (Z.of_nat (length l) + n)) l
  else firstn (Z.to_nat n) l.

Definition len {A : Type} (l : list A) : Z := Z.of_nat (length l).

(** [hamming(a, b) = int(np.count_nonzero(a != b))] on two flattened
    boolean arrays of one shape (NumPy compares arrays of one shape
    element by element; every hash here is a [phash] of the same size). *)
Fixpoint hamming (a b : list bool) : Z :=
  match a, b with
  | x :: a', y :: b' => (if xorb x y then 1 else 0) + hamming a' b'
  | _, _ => 0
  end.

Section FrameExtractor.
Context {F : Type} `{PyFloat F}.

(** *** [sample_candidate_timestamps] *)

Definition sample_candidate_timestamps
    (duration : option F) (target_frames : Z) (multiplier : F)
    (max_candidates : Z) : option (list F) :=
  match to_int (pymin (of_int max_candidates)
                      (pymax (fmul (of_int target_frames) multiplier)
                             (of_int target_frames))) with
  | None => None
  | Some n_cand =>
      let pseudo := Some (map of_int (range n_cand)) in
      match duration with
      | None => pseudo
      | Some d =>
          if fle d (of_int 0) then pseudo
          else
            let start := fmul f0_01 d in
            let stop := fmul f0_99 d in
            if n_cand <=? 1 then Some [fmul f0_5 d]
            else
              let step := fdiv (fsub stop start) (of_int (n_cand - 1)) in
              Some (map (fun i => fadd start (fmul (of_int i) step))
                        (range n_cand))
      end
  end.

(** Each timestamp is strictly below the next one. *)
Fixpoint strictly_increasing (ts : list F) : bool :=
  match ts with
  | x :: (y :: _) as rest => flt x y && strictly_increasing rest
  | _ => true
  end.

(** *** [FrameCandidate] *)

Record FrameCandidate : Type := {
  t : F;
  jpeg : list Byte.byte;
  sharpness : F;
  quality_score : F;
  brightness : F;
  hash : list bool
}.

(** *** [select_diverse_topk] *)

Definition in_band (bright_min bright_max : F) (c : FrameCandidate) : bool :=
  fle bright_min (brightness c) && fle (brightness c) bright_max.

(** [bright_min <= c.brightness <= bright_max and c.quality_score >= threshold] *)
Definition passes (bright_min bright_max threshold : F) (c : FrameCandidate)
    : bool :=
  in_band bright_min bright_max c && fle threshold (quality_score c).

(** Lines 196-211: the list [quality_filtered] before it is sorted. *)
Definition quality_filter (cands : list FrameCandidate) (k : Z)
    (bright_min bright_max min_quality_threshold : F) : list FrameCandidate :=
  let strict := filter (passes bright_min bright_max min_quality_threshold) cands in
  match strict with
  | _ :: _ => strict
  | [] =>
      let relaxed_threshold := fmul min_quality_threshold f0_5 in
      let relaxed := filter (passes bright_min bright_max relaxed_threshold) cands in
      match relaxed with
      | _ :: _ => relaxed
      | [] =>
          let bright := filter (in_band bright_min bright_max) cands in
          match bright with
          | _ :: _ => bright
          | [] => slice_to cands (Z.min (Z.min 2 (len cands)) k)
          end
      end
  end.

(** [quality_filtered.sort(key=lambda c: c.quality_score, reverse=True)].
    [list.sort] is stable and compares keys with [<] only; with
    [reverse=True] candidates of equal score keep their relative order.
    On scores that [<] orders totally (no nan) every such sort returns
    the list built here: each candidate is placed in front of the first
    one whose score is strictly smaller. *)
Fixpoint insert_desc (c : FrameCandidate) (l : list FrameCandidate)
    : list FrameCandidate :=
  match l with
  | [] => [c]
  | x :: l' =>
      if flt (quality_score x) (quality_score c) then c :: l
      else x :: insert_desc c l'
  end.

Definition sort_by_quality (l : list FrameCandidate) : list FrameCandidate :=
  fold_left (fun acc c => insert_desc c acc) l [].

(** Lines 222-227: the two nested loops, threading [(total_distance, pairs)]. *)
Fixpoint inner_pairs (x : FrameCandidate) (rest : list FrameCandidate)
    (acc : Z * Z) : Z * Z :=
  match rest with
  | [] => acc
  | y :: rest' =>
      inner_pairs x rest' (fst acc + hamming (hash x) (hash y), snd acc + 1)
  end.

Fixpoint outer_pairs (top_frames : list FrameCandidate) (acc : Z * Z) : Z * Z :=
  match top_frames with
  | [] => acc
  | x :: rest => outer_pairs rest (inner_pairs x rest acc)
  end.

(** [total_distance / pairs if pairs > 0 else 0]; [/] on two ints is the
    float nearest to the quotient. *)
Definition avg_distance (top_frames : list FrameCandidate) : F :=
  let '(total_distance, pairs) := outer_pairs top_frames (0, 0) in
  if 0 <? pairs then fdiv (of_int total_distance) (of_int pairs) else of_int 0.

(** Lines 217-236: [true] when the early [return quality_filtered[:1]] is taken. *)
Definition is_static (sorted : list FrameCandidate) (min_hamm : Z) : bool :=
  if 3 <=? len sorted then
    let sample_size := Z.min 8 (len sorted) in
    let top_frames := slice_to sorted sample_size in
    let static_threshold := fmul (of_int min_hamm) f0_4 in
    flt (avg_distance top_frames) static_threshold
  else false.

(** Lines 251-260: the inner loop with its [break]. *)
Fixpoint is_diverse (min_hamm : Z) (candidate : FrameCandidate)
    (chosen : list FrameCandidate) : bool :=
  match chosen with
  | [] => true
  | chosen_frame :: chosen' =>
      if hamming (hash candidate) (hash chosen_frame) <? min_hamm then false
      else is_diverse min_hamm candidate chosen'
  end.

(** Lines 246-263: the loop over [quality_filtered[1:]]. *)
Fixpoint greedy_loop (k min_hamm : Z) (rest chosen : list FrameCandidate)
    : list FrameCandidate :=
  match rest with
  | [] => chosen
  | candidate :: rest' =>
      if k <=? len chosen then chosen
      else if is_diverse min_hamm candidate chosen
           then greedy_loop k min_hamm rest' (chosen ++ [candidate])
           else greedy_loop k min_hamm rest' chosen
  end.

(** Lines 239-263. *)
Definition greedy_select (k min_hamm : Z) (sorted : list FrameCandidate)
    : list FrameCandidate :=
  match sorted with
  | [] => []
  | best :: rest => greedy_loop k min_hamm rest [best]
  end.

(** Lines 267-272. *)
Definition conservative_trim (k : Z) (chosen : list FrameCandidate)
    : list FrameCandidate :=
  let diversity_ratio :=
    if 0 <? k then fdiv (of_int (len chosen)) (of_int k) else of_int 0 in
  if flt diversity_ratio f0_3 && (2 <? len chosen)
  then slice_to chosen (Z.max 1 (len chosen / 2))
  else chosen.

Definition select_diverse_topk (cands : list FrameCandidate) (k min_hamm : Z)
    (bright_min bright_max min_quality_threshold : F) : list FrameCandidate :=
  match cands with
  | [] => []
  | _ :: _ =>
      let quality_filtered :=
        sort_by_quality
          (quality_filter cands k bright_min bright_max min_quality_threshold) in
      if is_static quality_filtered min_hamm then slice_to quality_filtered 1
      else conservative_trim k (greedy_select k min_hamm quality_filtered)
  end.

(** *** Vocabulary for the selector's properties *)

(** [a] does not rank strictly below [b]. *)
Definition not_below (a b : FrameCandidate) : Prop :=
  flt (quality_score a) (quality_score b) = false.

(** All unordered pairs of a list, each once. *)
Fixpoint all_pairs (l : list FrameCandidate)
    : list (FrameCandidate * FrameCandidate) :=
  match l with
  | [] => []
  | x :: rest => map (pair x) rest ++ all_pairs rest
  end.

Definition sum_hamming (ps : list (FrameCandidate * FrameCandidate)) : Z :=
  fold_right (fun p acc => hamming (hash (fst p)) (hash (snd p)) + acc) 0 ps.

(** The greedy walk in the specification's words: starting from the
    accepted list [chosen], candidates are taken in order; the walk stops
    once [k] are accepted or the list ends; a candidate is accepted only
    when it is at least [min_hamm] away from every accepted one. *)
Inductive greedy_walk (k min_hamm : Z)
  : list FrameCandidate -> list FrameCandidate -> list FrameCandidate -> Prop :=
| walk_end chosen :
    greedy_walk k min_hamm [] chosen chosen
| walk_full c rest chosen :
    k <= len chosen ->
    greedy_walk k min_hamm (c :: rest) chosen chosen
| walk_accept c rest chosen final :
    len chosen < k ->
    (forall a, In a chosen -> min_hamm <= hamming (hash c) (hash a)) ->
    greedy_walk k min_hamm rest (chosen ++ [c]) final ->
    greedy_walk k min_hamm (c :: rest) chosen final
| walk_reject c rest chosen final :
    len chosen < k ->
    (exists a, In a chosen /\ hamming (hash c) (hash a) < min_hamm) ->
    greedy_walk k min_hamm rest chosen final ->
    greedy_walk k min_hamm (c :: rest) chosen final.

(** *** [compute_max_frames_by_schedule]

    [int(round(e))] for one linear segment; [int] of an int is that int. *)
Definition segment (base lo width gain : Z) : F -> option Z :=
  fun dur =>
    pyround (fadd (of_int base)
                  (fmul (fdiv (fsub dur (of_int lo)) (of_int width))
                        (of_int gain))).

(** [log10] is [math.log10], the C library's function. *)
Definition compute_max_frames_by_schedule (log10 : F -> F)
    (duration : option F) (user_max : option Z) : option Z :=
  match user_max with
  | Some m => Some m
  | None =>
      match duration with
      | None => Some 15
      | Some d =>
          if fle d (of_int 10) then Some 3
          else if fle d (of_int 30) then segment 3 10 20 2 d
          else if fle d (of_int 60) then segment 5 30 30 5 d
          else if fle d (of_int 120) then segment 10 60 60 5 d
          else if fle d (of_int 300) then segment 15 120 180 5 d
          else if fle d (of_int 600) then segment 20 300 300 10 d
          else
            let extra_time := fsub d (of_int 600) in
            match to_int (fmul (of_int 10)
                            (log10 (fadd (of_int 1)
                                      (fdiv extra_time (of_int 600))))) with
            | None => None
            | Some extra_frames => Some (Z.min 50 (30 + extra_frames))
            end
      end
  end.

End FrameExtractor.

Arguments FrameCandidate F : clear implicits.

(** The values of a list of schedule results never go down, and none is
    an error. *)
Fixpoint nondecreasing (l : list (option Z)) : bool :=
  match l with
  | Some a :: (Some b :: _) as rest => (a <=? b) && nondecreasing rest
  | [Some _] | [] => true
  | _ => false
  end.

(** *** The pieces of the schedule, in exact arithmetic *)

Module SchedulePieces.
Import Exact.

#[local] Open Scope R_scope.

(** The branch beyond 600 seconds. *)
Definition beyond (d : R) : Z :=
  Z.min 50 (30 + trunc (10 * log10 (1 + (d - 600) / 600))).

(** The value before rounding on the linear piece from [lo] to
    [lo + width], which rises from [base] to [base + gain]. *)
Definition linear (base lo width gain : Z) (d : R) : R :=
  IZR base + (d - IZR lo) / IZR width * IZR gain.

(** Which piece of the schedule a duration falls on, what the schedule
    returns there, and the range of that piece. *)
Inductive piece (d : R) (n : Z) : Z -> Z -> Prop :=
| piece_short : d <= 10 -> n = 3%Z -> piece d n 3 3
| piece_30 : 10 < d <= 30 ->
    n = round_half_even (linear 3 10 20 2 d) -> piece d n 3 5
| piece_60 : 30 < d <= 60 ->
    n = round_half_even (linear 5 30 30 5 d) -> piece d n 5 10
| piece_120 : 60 < d <= 120 ->
    n = round_half_even (linear 10 60 60 5 d) -> piece d n 10 15
| piece_300 : 120 < d <= 300 ->
    n = round_half_even (linear 15 120 180 5 d) -> piece d n 15 20
| piece_600 : 300 < d <= 600 ->
    n = round_half_even (linear 20 300 300 10 d) -> piece d n 20 30
| piece_beyond : 600 < d -> n = beyond d -> piece d n 30 50.

End SchedulePieces.

(** *** [phash]

    Pillow's grayscale conversion and Lanczos resize and SciPy's DCT are
    library calls; they enter as the two functions below.  The rest of
    [phash] (lines 153-156) is NumPy slicing, a median and a comparison. *)

(** [np.median] of a flattened array: the middle element of the sorted
    values, or the mean of the two middle ones; [nan] (that is [0/0]) on
    an empty array.  The values a DCT returns contain no nan.  NumPy takes
    the mean in the precision of the array (float32 here); with the
    default [hash_size = 8] the median is over 49 values and no mean is
    taken. *)
Section PerceptualHash.
Context {F : Type} `{PyFloat F}.

Fixpoint insert_asc (x : F) (l : list F) : list F :=
  match l with
  | [] => [x]
  | y :: l' => if flt x y then x :: l else y :: insert_asc x l'
  end.

Definition sort_asc (l : list F) : list F :=
  fold_left (fun acc x => insert_asc x acc) l [].

Definition np_median (l : list F) : F :=
  let s := sort_asc l in
  let n := length l in
  let nan := fdiv (of_int 0) (of_int 0) in
  match n with
  | O => nan
  | _ =>
      if Nat.even n
      then fdiv (fadd (nth (n / 2 - 1) s nan) (nth (n / 2) s nan)) (of_int 2)
      else nth (n / 2) s nan
  end.

(** [dct[:hash_size, :hash_size]], [dctlow[1:, 1:]], [dctlow > med] and
    [.flatten()]. *)
Definition block (dct : list (list F)) (hash_size : Z) : list (list F) :=
  map (fun row => slice_to row hash_size) (slice_to dct hash_size).

Definition drop_first_row_col (m : list (list F)) : list (list F) :=
  map (skipn 1) (skipn 1 m).

Definition phash_bits (dct : list (list F)) (hash_size : Z) : list bool :=
  let dctlow := block dct hash_size in
  let med := np_median (concat (drop_first_row_col dctlow)) in
  concat (map (map (fun x => flt med x)) dctlow).

(** The thresholding as the specification words it: every coefficient
    of the block except the DC term, against the block's median. *)
Definition phash_bits_as_specified (dct : list (list F)) (hash_size : Z)
    : list bool :=
  let dctlow := block dct hash_size in
  let med := np_median (concat dctlow) in
  skipn 1 (concat (map (map (fun x => flt med x)) dctlow)).

Section Libraries.
Variable Image : Type.
(** [np.asarray(img.convert("L").resize((size, size), LANCZOS))] *)
Variable gray_resized : Image -> Z -> list (list F).
(** [scipy.fft.dct(scipy.fft.dct(pixels, axis=0, norm='ortho'), axis=1, norm='ortho')] *)
Variable dct2 : list (list F) -> list (list F).

Definition phash (img : Image) (hash_size highfreq_factor : Z) : list bool :=
  let size := hash_size * highfreq_factor in
  let pixels := gray_resized img size in
  let dct := dct2 pixels in
  phash_bits dct hash_size.
End Libraries.

(** An array of [rows] rows of [cols] values each. *)
Definition has_shape (m : list (list F)) (rows cols : Z) : Prop :=
  len m = rows /\ Forall (fun row => len row = cols) m.

End PerceptualHash.

(** All rows have [c] entries. *)
Definition width_is {A : Type} (c : nat) (m : list (list A)) : Prop :=
  Forall (fun row => length row = c) m.

(** ** [album_downloader.py]

    [AlbumDownloader.download_album] as a transition system.  The item
    tasks started by [asyncio.gather] run on one event loop and share only
    [self.failed_downloads], which a task touches once, by the [append]
    that ends it; a task is therefore one step, taken when it completes,
    and the tasks complete in any order; the trace records a task's
    events when it completes.  What the collaborators return
    (page resolution, [MediaDownloader.download]) is not the orchestrator's
    to decide: every outcome is a possible step.  Collaborators that
    raise are outside this model. *)

Module Album.

Definition string : Type := String.string.

(** The dict [MediaDownloader.download] returns for a failed download. *)
Record FailureRecord : Type := {
  id : Z;
  filename : string;
  download_link : string
}.

(** [DownloadInfo(download_link, filename, task)] *)
Record DownloadInfo : Type := {
  info_download_link : string;
  info_filename : string;
  info_task : Z
}.

Inductive event : Type :=
| Extraction (current_task : nat) (item_filename : string)
    (* the frame-extraction branch ran, whatever its outcome *)
| Download (info : DownloadInfo) (retries : option Z)
    (failed_download : option FailureRecord)
    (* [MediaDownloader(..., retries).download()] returned; [retries] is
       [None] when the constructor's default is used *)
| ItemDone (current_task : nat).
    (* [execute_item_download] returned *)

Inductive phase : Type :=
| Gathering                                (* inside [asyncio.gather] *)
| Retrying (rest : list FailureRecord)     (* inside the [for] of [process_failed_downloads] *)
| Finished.

Record state : Type := {
  running : list (nat * string);           (* item tasks not yet complete *)
  failed_downloads : list FailureRecord;   (* [self.failed_downloads] *)
  trace : list event;
  at_phase : phase
}.

Section Run.
(** [self.session_info.args.extract_frames] *)
Variable extract_frames : bool.
(** [helpers.video.video_utils.is_video_file]; only its being a
    function of the filename matters here. *)
Variable is_video_file : string -> bool.
(** [live_manager.add_task(current_task=...)] *)
Variable add_task : nat -> Z.

(** [enumerate(self.album_info.item_pages)] *)
Definition enumerate (item_pages : list string) : list (nat * string) :=
  combine (seq 0 (length item_pages)) item_pages.

Definition init (item_pages : list string) : state :=
  {| running := enumerate item_pages; failed_downloads := [];
     trace := []; at_phase := Gathering |}.

(** One [execute_item_download]: the events it adds and the failure
    record it appends, given what page resolution returned. *)
Inductive item_run (current_task : nat)
  : list event -> option FailureRecord -> Prop :=
| item_no_link :
    (* [item_download_link] is falsy *)
    item_run current_task [ItemDone current_task] None
| item_extract (item_download_link item_filename : string) :
    extract_frames = true -> is_video_file item_filename = true ->
    item_run current_task
      [Extraction current_task item_filename; ItemDone current_task] None
| item_download (item_download_link item_filename : string)
    (failed_download : option FailureRecord) :
    extract_frames && is_video_file item_filename = false ->
    item_run current_task
      [Download {| info_download_link := item_download_link;
                   info_filename := item_filename;
                   info_task := add_task current_task |}
                None failed_download;
       ItemDone current_task]
      failed_download.

(** [list.append] of the failure, when there is one. *)
Definition append_failure (l : list FailureRecord)
    (failed_download : option FailureRecord) : list FailureRecord :=
  match failed_download with
  | Some f => l ++ [f]
  | None => l
  end.

(** [retry_failed_download(data["id"], data["filename"], data["download_link"])] *)
Definition retry_event (data : FailureRecord)
    (result : option FailureRecord) : event :=
  Download {| info_download_link := download_link data;
              info_filename := filename data;
              info_task := id data |}
           (Some 1) result.

Inductive step : state -> state -> Prop :=
| step_item before current_task item_page after failed trace0 events failure :
    item_run current_task events failure ->
    step {| running := before ++ (current_task, item_page) :: after;
            failed_downloads := failed; trace := trace0;
            at_phase := Gathering |}
         {| running := before ++ after;
            failed_downloads := append_failure failed failure;
            trace := trace0 ++ events; at_phase := Gathering |}
| step_gathered failed trace0 :
    (* [asyncio.gather] returns; [if self.failed_downloads:] *)
    step {| running := []; failed_downloads := failed; trace := trace0;
            at_phase := Gathering |}
         {| running := []; failed_downloads := failed; trace := trace0;
            at_phase := match failed with
                        | [] => Finished
                        | _ :: _ => Retrying failed
                        end |}
| step_retry tasks failed trace0 data rest result :
    (* the result of the retried download is dropped *)
    step {| running := tasks; failed_downloads := failed; trace := trace0;
            at_phase := Retrying (data :: rest) |}
         {| running := tasks; failed_downloads := failed;
            trace := trace0 ++ [retry_event data result];
            at_phase := Retrying rest |}
| step_clear tasks failed trace0 :
    (* [self.failed_downloads.clear()] *)
    step {| running := tasks; failed_downloads := failed; trace := trace0;
            at_phase := Retrying [] |}
         {| running := tasks; failed_downloads := []; trace := trace0;
            at_phase := Finished |}.

Inductive steps : state -> state -> Prop :=
| steps_refl s : steps s s
| steps_next s1 s2 s3 : steps s1 s2 -> step s2 s3 -> steps s1 s3.

(** A complete run of [download_album] on an album. *)
Definition run (item_pages : list string) (final : state) : Prop :=
  steps (init item_pages) final /\ at_phase final = Finished.

End Run.

(** Reading a trace. *)
Definition is_retry (e : event) : bool :=
  match e with
  | Download _ (Some _) _ => true
  | _ => false
  end.

Definition is_failed_plain_download (e : event) : bool :=
  match e with
  | Download _ None (Some _) => true
  | _ => false
  end.

Definition is_item_done (e : event) : bool :=
  match e with
  | ItemDone _ => true
  | _ => false
  end.

Definition retry_counter_is_1 (e : event) : bool :=
  match e with
  | Download _ (Some r) _ => r =? 1
  | _ => true
  end.

Definition count (p : event -> bool) (l : list event) : nat :=
  length (filter p l).

(** The failure records returned by the plain downloads of a trace, in
    the order of the trace. *)
Definition failures_of (l : list event) : list FailureRecord :=
  flat_map (fun e => match e with
                     | Download _ None (Some f) => [f]
                     | _ => []
                     end) l.

(** [e] is the one retry of the failure [data]. *)
Definition retries_failure (data : FailureRecord) (e : event) : Prop :=
  exists result, e = retry_event data result.

(** What holds of every state of a run on [m] item pages. *)
Definition invariant (m : nat) (s : state) : Prop :=
  match at_phase s with
  | Gathering =>
      (count is_item_done (trace s) + length (running s))%nat = m /\
      count is_retry (trace s) = 0%nat /\
      failed_downloads s = failures_of (trace s) /\
      (count is_failed_plain_download (trace s) <= count is_item_done (trace s))%nat
  | Retrying rest =>
      exists initial retries handled,
        trace s = initial ++ retries /\
        count is_item_done initial = m /\
        count is_retry initial = 0%nat /\
        (count is_failed_plain_download initial <= m)%nat /\
        failures_of initial = handled ++ rest /\
        Forall2 retries_failure handled retries
  | Finished =>
      failed_downloads s = [] /\
      exists initial retries,
        trace s = initial ++ retries /\
        count is_item_done initial = m /\
        count is_retry initial = 0%nat /\
        (count is_failed_plain_download initial <= m)%nat /\
        Forall2 retries_failure (failures_of initial) retries
  end.

(** How far a state is from the end of [download_album]. *)
Definition distance (s : state) : nat :=
  match at_phase s with
  | Gathering => 2 * length (running s) + length (failed_downloads s) + 2
  | Retrying rest => length rest + 1
  | Finished => 0
  end.

End Album.

(** ** Sample inputs *)

Module Samples.

(** A 64-bit hash whose first [ones] bits are set. *)
Definition bits (ones : nat) : list bool :=
  repeat true ones ++ repeat false (64 - ones).

Definition frame (time quality bright : float) (ones : nat)
    : FrameCandidate float :=
  {| t := time; jpeg := []; sharpness := 0%float; quality_score := quality;
     brightness := bright; hash := bits ones |}.

(** Three well-lit, sharp frames that differ a lot. *)
Definition varied : list (FrameCandidate float) :=
  [frame 1 2.0 0.5 0; frame 2 3.0 0.5 20; frame 3 1.0 0.5 40]%float.

(** The one frame sampled from a 100-second video when the frame budget
    is zero: the midpoint, well lit and sharp. *)
Definition lone : list (FrameCandidate float) := [frame 50 3.0 0.5 20]%float.

(** Three well-lit, sharp frames that are nearly the same picture. *)
Definition still : list (FrameCandidate float) :=
  [frame 1 2.0 0.5 0; frame 2 3.0 0.5 1; frame 3 1.0 0.5 2]%float.

(** Three frames that are too dark for the brightness band. *)
Definition dark : list (FrameCandidate float) :=
  [frame 1 2.0 0.01 0; frame 2 3.0 0.02 20; frame 3 1.0 0.03 40]%float.

(** Eight varied frames, for a budget much larger than the yield. *)
Definition sparse : list (FrameCandidate float) :=
  [frame 1 8.0 0.5 0; frame 2 7.0 0.5 20; frame 3 6.0 0.5 40;
   frame 4 5.0 0.5 60; frame 5 4.0 0.5 1; frame 6 3.0 0.5 21;
   frame 7 2.0 0.5 41; frame 8 1.0 0.5 61]%float.

(** DCT coefficients of a block with [hash_size = 2], and the same with
    the DC term set to zero. *)
Definition coefficients : list (list float) := [[9; 1]; [2; 3]]%float.
Definition coefficients_no_dc : list (list float) := [[0; 1]; [2; 3]]%float.

(** Stand-ins for Pillow and SciPy: a uniformly gray picture of the
    requested size, and a transform that keeps its input. *)
Definition flat_image (gray : float) (size : Z) : list (list float) :=
  repeat (repeat gray (Z.to_nat size)) (Z.to_nat size).
Definition keep (m : list (list float)) : list (list float) := m.

End Samples.

Module AlbumSamples.
Import Stdlib.Strings.String.

(** An album of two item pages; the download of the second page fails
    and its task completes first, and the retry fails as well. *)
Definition page0 : Album.string := "https://host/f/a"%string.
Definition page1 : Album.string := "https://host/f/b"%string.
Definition pages : list Album.string := [page0; page1].
Definition link0 : Album.string := "https://cdn/a.jpg"%string.
Definition link1 : Album.string := "https://cdn/b.jpg"%string.
Definition name0 : Album.string := "a.jpg"%string.
Definition name1 : Album.string := "b.jpg"%string.

Definition lost : Album.FailureRecord :=
  {| Album.id := 1; Album.filename := name1; Album.download_link := link1 |}.

Definition plain (task : nat) (link name : Album.string)
    (failed : option Album.FailureRecord) : Album.event :=
  Album.Download {| Album.info_download_link := link;
                    Album.info_filename := name;
                    Album.info_task := Z.of_nat task |} None failed.

Definition album_trace : list Album.event :=
  [plain 1 link1 name1 (Some lost); Album.ItemDone 1;
   plain 0 link0 name0 None; Album.ItemDone 0;
   Album.retry_event lost (Some lost)].

Definition album_end : Album.state :=
  {| Album.running := []; Album.failed_downloads := [];
     Album.trace := album_trace; Album.at_phase := Album.Finished |}.

End AlbumSamples.

(** ** Further vocabulary *)

(** [l1] is [l2] with some elements left out, the order kept. *)
Inductive subsequence {A : Type} : list A -> list A -> Prop :=
| subsequence_nil : subsequence [] []
| subsequence_skip x l1 l2 : subsequence l1 l2 -> subsequence l1 (x :: l2)
| subsequence_keep x l1 l2 : subsequence l1 l2 -> subsequence (x :: l1) (x :: l2).

Section SelectorVocabulary.
Context {F : Type} `{PyFloat F}.

(** Two frames are at least [min_hamm] bits apart. *)
Definition far_apart (min_hamm : Z) (a b : FrameCandidate F) : Prop :=
  min_hamm <= hamming (hash a) (hash b).

End SelectorVocabulary.

Module ExactSamples.

(** The frames of [Samples] over the reals. *)
Definition frame (time quality bright : R) (ones : nat) : FrameCandidate R :=
  {| t := time; jpeg := []; sharpness := 0%R; quality_score := quality;
     brightness := bright; hash := Samples.bits ones |}.

(** Three well-lit, sharp frames that differ a lot. *)
Definition spread : list (FrameCandidate R) :=
  [frame 1 2 (1 / 2) 0; frame 2 3 (1 / 2) 20; frame 3 1 (1 / 2) 40]%R.

End ExactSamples.

(** ** [compute_composite_quality_score] *)

Section QualityScore.
Context {F : Type} `{PyFloat F}.

Definition f0_6 : F := decimal 6 10.

Variable Image : Type.
(** [image_laplacian_var] and [image_gradient_magnitude] are NumPy array
    arithmetic on the picture; [None] stands for a raised exception. *)
Variable image_laplacian_var : Image -> option F.
Variable image_gradient_magnitude : Image -> option F.

Definition compute_composite_quality_score (img : Image) : F :=
  match image_laplacian_var img with
  | None => of_int 0
  | Some laplacian_var =>
      match image_gradient_magnitude img with
      | None => of_int 0
      | Some gradient_mag =>
          let normalized_laplacian :=
            pymin (fdiv laplacian_var (of_int 1000)) (of_int 10) in
          let normalized_gradient :=
            pymin (fdiv gradient_mag (of_int 10)) (of_int 5) in
          fadd (fmul f0_4 normalized_laplacian) (fmul f0_6 normalized_gradient)
      end
  end.

End QualityScore.

(** ** [video_utils.estimate_frame_count_by_duration] *)

Section VideoUtils.
Context {F : Type} `{PyFloat F}.

Definition estimate_frame_count_by_duration (log10 : F -> F)
    (duration : option F) (user_top : option Z) : option Z :=
  match user_top with
  | Some m => Some m
  | None =>
      match duration with
      | None => Some 15
      | Some d =>
          if fle d (of_int 10) then
            match to_int (fdiv d (of_int 3)) with
            | None => None
            | Some q => Some (Z.max 1 q)
            end
          else if fle d (of_int 30) then segment 3 10 20 2 d
          else if fle d (of_int 60) then segment 5 30 30 5 d
          else if fle d (of_int 120) then segment 10 60 60 5 d
          else if fle d (of_int 300) then segment 15 120 180 5 d
          else if fle d (of_int 600) then segment 20 300 300 10 d
          else
            let extra_time := fsub d (of_int 600) in
            match to_int (fmul (of_int 8)
                            (log10 (fadd (of_int 1)
                                      (fdiv extra_time (of_int 300))))) with
            | None => None
            | Some extra_frames => Some (Z.min 45 (30 + extra_frames))
            end
      end
  end.

End VideoUtils.

Module ScoreSamples.

(** A picture stands for its two sharpness metrics. *)
Definition laplacian (img : R * R) : option R := Some (fst img).
Definition gradient (img : R * R) : option R := Some (snd img).

End ScoreSamples.

(** ** Lengths of runs and the tasks of a trace *)

Module AlbumRuns.
Import Album.

Section Counted.
Variable extract_frames : bool.
Variable is_video_file : string -> bool.
Variable add_task : nat -> Z.

(** [steps_in n s s']: [s'] is reached from [s] in exactly [n] steps. *)
Inductive steps_in : nat -> state -> state -> Prop :=
| steps_in_zero s : steps_in O s s
| steps_in_next n s1 s2 s3 :
    steps_in n s1 s2 -> step extract_frames is_video_file add_task s2 s3 ->
    steps_in (S n) s1 s3.

(** The branch of [execute_item_download] an event of the first pass
    belongs to agrees with the test
    [extract_frames and is_video_file(item_filename)]. *)
Definition branch_matches (e : event) : bool :=
  match e with
  | Extraction _ item_filename => extract_frames && is_video_file item_filename
  | Download info None _ =>
      negb (extract_frames && is_video_file (info_filename info))
  | _ => true
  end.

(** The tasks that have returned, in the order of the trace. *)
Definition done_tasks (l : list event) : list nat :=
  flat_map (fun e => match e with
                     | ItemDone current_task => [current_task]
                     | _ => []
                     end) l.

(** What holds of the tasks of every state of a run on [m] item
    pages. *)
Definition tasks_invariant (m : nat) (s : state) : Prop :=
  Permutation (done_tasks (trace s) ++ map fst (running s)) (seq 0 m) /\
  (at_phase s <> Gathering -> running s = []) /\
  forallb branch_matches (trace s) = true.

End Counted.

End AlbumRuns.

(** ** [video_utils.sanitize_video_folder_name] *)

Module VideoNames.

(** A Python string is a sequence of code points. *)
Definition str : Type := list N.

(** The characters of the class in the pattern: less-than, greater-than,
    colon, double quote, slash, backslash, bar, question mark, star. *)
Definition invalid_chars : list N := [60; 62; 58; 34; 47; 92; 124; 63; 42]%N.

Definition is_invalid (c : N) : bool := existsb (N.eqb c) invalid_chars.

Definition underscore : N := 95%N.

Definition sanitize_video_folder_name (name : str) : str :=
  let sanitized := map (fun c => if is_invalid c then underscore else c) name in
  if 50 <? len sanitized then slice_to sanitized 50 else sanitized.

End VideoNames.

(** ** [extract_frames_from_video] *)

Module FrameFiles.
Import Stdlib.Strings.Ascii Stdlib.Strings.String.
#[local] Open Scope string_scope.

(** [str(n)] for a counter and for an integer. *)
Definition decimal_of_nat (n : nat) : string :=
  DecimalString.NilZero.string_of_uint (Nat.to_uint n).
Definition decimal_of_Z (z : Z) : string :=
  DecimalString.NilZero.string_of_int (Z.to_int z).

Fixpoint zeros (n : nat) : string :=
  match n with
  | O => ""
  | S n' => String "0" (zeros n')
  end.

(** The format [{i:03d}] of a counter. *)
Definition pad3 (i : nat) : string :=
  let s := decimal_of_nat i in zeros (3 - String.length s) ++ s.

(** The format [{prefix}_{i:03d}_t{ts_ms}ms.jpg]. *)
Definition frame_filename (prefix : string) (i : nat) (ts_ms : Z) : string :=
  prefix ++ "_" ++ pad3 i ++ "_t" ++ decimal_of_Z ts_ms ++ "ms.jpg".

(** The number a string of decimal digits denotes. *)
Definition value (s : string) : option nat :=
  option_map Nat.of_uint (DecimalString.NilEmpty.uint_of_string s).

Fixpoint occurs (c : Ascii.ascii) (s : string) : bool :=
  match s with
  | EmptyString => false
  | String c' s' => Ascii.eqb c c' || occurs c s'
  end.

End FrameFiles.

Section Pipeline.
Context {F : Type} `{PyFloat F}.

Variable Image : Type.
(** [math.log10] *)
Variable log10 : F -> F.
(** [shutil.which] finds both [ffmpeg] and [ffprobe]. *)
Variable tools_found : bool.
(** [run_ffprobe_duration(video_url)] *)
Variable run_ffprobe_duration : option F.
(** What the [ffmpeg] process prints for a seek position, [None] when
    it fails. *)
Variable ffmpeg_output : F -> option (list Byte.byte).
(** [Image.open(io.BytesIO(jpeg))] and [img.load()], [None] when they
    raise. *)
Variable image_open : list Byte.byte -> option Image.
(** The metrics of a picture, [None] when they raise. *)
Variable image_laplacian_var : Image -> option F.
Variable image_gradient_magnitude : Image -> option F.
Variable image_brightness : Image -> option F.
Variable image_phash : Image -> option (list bool).

(** [max(0.0, t)], the position of the [-ss] option. *)
Definition seek_position (t : F) : F := pymax (of_int 0) t.

Definition ffmpeg_grab_frame_at (t : F) : option (list Byte.byte) :=
  ffmpeg_output (seek_position t).

(** The body of the loop over the candidate timestamps: the candidate
    appended for [t], or [None] when the loop continues without one. *)
Definition candidate_at (t : F) : option (FrameCandidate F) :=
  match ffmpeg_grab_frame_at t with
  | None | Some [] => None
  | Some jpeg =>
      match image_open jpeg with
      | None => None
      | Some img =>
          match image_laplacian_var img with
          | None => None
          | Some sharp =>
              let quality_score :=
                compute_composite_quality_score Image image_laplacian_var
                  image_gradient_magnitude img in
              match image_brightness img with
              | None => None
              | Some bright =>
                  match image_phash img with
                  | None => None
                  | Some ph =>
                      Some {| t := t; jpeg := jpeg; sharpness := sharp;
                              quality_score := quality_score;
                              brightness := bright; hash := ph |}
                  end
              end
          end
      end
  end.

Definition grab_candidates (cand_ts : list F) : list (FrameCandidate F) :=
  flat_map (fun t => match candidate_at t with
                     | Some c => [c]
                     | None => []
                     end) cand_ts.

(** The loop that saves the selected frames, counting from [i]: the
    file names with the bytes written to each, or [None] when
    [round(c.t * 1000)] raises.  Writing a file is taken to succeed. *)
Fixpoint save_frames (prefix : String.string) (i : nat)
    (selected : list (FrameCandidate F))
    : option (list (String.string * list Byte.byte)) :=
  match selected with
  | [] => Some []
  | c :: rest =>
      match pyround (fmul (t c) (of_int 1000)) with
      | None => None
      | Some ts_ms =>
          match save_frames prefix (S i) rest with
          | None => None
          | Some saved =>
              Some ((FrameFiles.frame_filename prefix i ts_ms, jpeg c) :: saved)
          end
      end
  end.

(** The result lists each saved file by its name inside the frames
    folder of the video, with its contents; [None] stands for a raised
    exception.  Creating the folder [video_{stem}_frames] is taken to
    succeed, as is writing the files; the folder is the same for all
    files of a call, so two paths are equal when the names are. *)
Definition extract_frames_from_video (target_frames : option Z)
    (cand_mult : F) (cand_max min_hamm : Z) (bright_min bright_max : F)
    (prefix : String.string)
    : option (list (String.string * list Byte.byte)) :=
  if negb tools_found then None
  else
    let duration := run_ffprobe_duration in
    match compute_max_frames_by_schedule log10 duration target_frames with
    | None => None
    | Some max_frames =>
        match sample_candidate_timestamps duration max_frames cand_mult
                cand_max with
        | None => None
        | Some cand_ts =>
            let candidates := grab_candidates cand_ts in
            let selected :=
              select_diverse_topk candidates max_frames min_hamm
                bright_min bright_max f0_3 in
            save_frames prefix 1 selected
        end
    end.

End Pipeline.

Module PipelineSamples.
Import Stdlib.Strings.String.

(** A video of 20 seconds that shows four scenes of five seconds each;
    a picture is the one byte of its scene. *)
Definition scene (seek : float) : option (list Byte.byte) :=
  if (seek <? 5)%float then Some [Byte.x01]
  else if (seek <? 10)%float then Some [Byte.x02]
  else if (seek <? 15)%float then Some [Byte.x03]
  else Some [Byte.x04].

Definition open (jpeg : list Byte.byte) : option Byte.byte :=
  match jpeg with
  | [b] => Some b
  | _ => None
  end.

Definition laplacian (img : Byte.byte) : option float :=
  match img with
  | Byte.x01 => Some 4000%float
  | Byte.x02 => Some 3000%float
  | Byte.x03 => Some 2000%float
  | _ => Some 1000%float
  end.

Definition gradient (img : Byte.byte) : option float := Some 20%float.
Definition bright (img : Byte.byte) : option float := Some 0.5%float.

Definition fingerprint (img : Byte.byte) : option (list bool) :=
  Some (Samples.bits match img with
                     | Byte.x01 => 0
                     | Byte.x02 => 20
                     | Byte.x03 => 40
                     | _ => 60
                     end).

(** The durations of the samples stay below 600 seconds, where
    [math.log10] is not called. *)
Definition log10_unused (x : float) : float := x.

Definition prefix : string := "frame"%string.

Definition run : option (list (string * list Byte.byte)) :=
  extract_frames_from_video Byte.byte log10_unused true (Some 20%float)
    scene open laplacian gradient bright fingerprint
    None 4%float 200 12 0.08%float 0.98%float prefix.

Definition saved : list (string * list Byte.byte) :=
  [("frame_001_t200ms.jpg"%string, [Byte.x01]);
   ("frame_002_t5427ms.jpg"%string, [Byte.x02]);
   ("frame_003_t10653ms.jpg"%string, [Byte.x03]);
   ("frame_004_t15880ms.jpg"%string, [Byte.x04])].

End PipelineSamples.

(** ** The search scraper and the questions of [interactive_downloader]

    A string stands for its UTF-8 bytes; [startswith], [in] and [==] on
    the ASCII patterns below give the same answers on the bytes as on
    the code points. *)

Module Scraper.
Import Stdlib.Strings.String.

(** [needle in s] *)
Fixpoint contains (needle s : string) : bool :=
  prefix needle s ||
  match s with
  | EmptyString => false
  | String _ s' => contains needle s'
  end.

(** [url in seen] *)
Definition mem (url : string) (seen : list string) : bool :=
  existsb (String.eqb url) seen.

(** [range(a, b)] *)
Definition range_from (a b : Z) : list Z := map (fun i => a + i) (range (b - a)).

Section Scraper.
(** [self.album_domain] *)
Variable album_domain : string.

Definition normalize_album_url (href : string) : string :=
  if prefix "http" href then href
  else if prefix "/" href then String.append album_domain href
  else href.

(** The loop of [extract_album_urls] over the [href] attributes of the
    anchors that [soup.select] returns ([None] for an anchor without
    the attribute). *)
Fixpoint extract_loop (anchors : list (option string))
    (found_urls seen : list string) : list string :=
  match anchors with
  | [] => found_urls
  | None :: rest => extract_loop rest found_urls seen
  | Some href :: rest =>
      if String.eqb href "" then extract_loop rest found_urls seen
      else if prefix "javascript:" href then extract_loop rest found_urls seen
      else
        let url := normalize_album_url href in
        if contains "/a/" url && negb (mem url seen)
        then extract_loop rest (found_urls ++ [url]) (url :: seen)
        else extract_loop rest found_urls seen
  end.

Definition extract_album_urls (anchors : list (option string)) : list string :=
  extract_loop anchors [] [].

(** The [href] values that reach the last test of the loop and pass its
    first half. *)
Definition accepted (href : string) : bool :=
  negb (String.eqb href "") && negb (prefix "javascript:" href) &&
  contains "/a/" (normalize_album_url href).

Definition hrefs (anchors : list (option string)) : list string :=
  flat_map (fun anchor => match anchor with
                          | Some href => [href]
                          | None => []
                          end) anchors.

(** [fetch_soup(build_search_url(query, page))] followed by the
    selection of the anchors; [None] when the request or the parser
    raises. *)
Variable fetch_page : Z -> option (list (option string)).

(** [if max_albums:] *)
Definition is_set (max_albums : option Z) : bool :=
  match max_albums with
  | Some n => negb (n =? 0)
  | None => false
  end.

(** The loop of [scrape_search_results] over the pages left. *)
Fixpoint scrape_loop (max_albums : option Z) (pages : list Z)
    (all_albums : list string) : list string :=
  match pages with
  | [] => all_albums
  | page :: rest =>
      match fetch_page page with
      | None => scrape_loop max_albums rest all_albums
      | Some anchors =>
          match extract_album_urls anchors with
          | [] => all_albums
          | albums =>
              let all_albums := all_albums ++ albums in
              match max_albums with
              | Some n =>
                  if negb (n =? 0) && (n <=? len all_albums)
                  then slice_to all_albums n
                  else scrape_loop max_albums rest all_albums
              | None => scrape_loop max_albums rest all_albums
              end
          end
      end
  end.

Definition scrape_search_results (max_pages : Z) (max_albums : option Z)
    : list string :=
  scrape_loop max_albums (range_from 1 (max_pages + 1)) [].

(** All albums of the pages that could be fetched, in page order. *)
Definition albums_of_pages (pages : list Z) : list string :=
  flat_map (fun page => match fetch_page page with
                        | Some anchors => extract_album_urls anchors
                        | None => []
                        end) pages.

(** [str.strip] and [int] on a string, [None] for a [ValueError]. *)
Variable strip : string -> string.
Variable int_of_str : string -> option Z.

(** [ask_album_count] on the lines the user types: the value stored in
    [config['max_albums']], or [None] when the input ends before a valid
    answer ([input] raises [EOFError]). *)
Fixpoint ask_album_count (lines : list string) : option Z :=
  match lines with
  | [] => None
  | line :: rest =>
      let count := strip line in
      if String.eqb count "" then Some 10
      else
        match int_of_str count with
        | None => ask_album_count rest
        | Some count =>
            if (1 <=? count) && (count <=? 100) then Some count
            else ask_album_count rest
        end
  end.

(** The album list [run_download] goes through: the search results, or
    the lines of [URLs.txt] ([None] when the file does not exist) that
    are neither blank nor comments; an early return processes no
    album. *)
Definition albums_to_process (use_search : bool) (search_term : string)
    (max_albums : Z) (urls_file : option (list string)) : list string :=
  if use_search && negb (String.eqb search_term "")
  then scrape_search_results 20 (Some max_albums)
  else
    match urls_file with
    | None => []
    | Some lines =>
        let album_urls :=
          flat_map (fun line =>
                      let line := strip line in
                      if negb (String.eqb line "") && negb (prefix "#" line)
                      then [line] else []) lines in
        slice_to album_urls max_albums
    end.

End Scraper.

End Scraper.

Module ScraperSamples.
Import Stdlib.Strings.String.

Definition domain : string := "https://bunkr.cr"%string.
Definition http : string := "http"%string.
Definition slash : string := "/"%string.
Definition relative : string := "/a/one"%string.
Definition term : string := "nature photos"%string.

Definition anchors : list (option string) :=
  [Some "/a/one"; None; Some "javascript:void(0)"; Some "https://x.org/a/two";
   Some "/a/one"; Some "a/b"; Some ""]%string.

(** Two pages of results, a page that fails, and then no more results. *)
Definition site (page : Z) : option (list (option string)) :=
  if page =? 1 then Some anchors
  else if page =? 2 then None
  else if page =? 3 then Some [Some "/a/three"%string]
  else Some [].

(** A user who types a word, a number out of range and then 2. *)
Definition typed : list string := ["many"; "500"; "2"]%string.
Definition read_int (s : string) : option Z :=
  if String.eqb s "500" then Some 500
  else if String.eqb s "2" then Some 2
  else None.

End ScraperSamples.

(** ** Counting the coefficients above a threshold *)

Section Thresholds.
Context {F : Type} `{PyFloat F}.

(** The number of values [x] with [x > threshold], the test of the
    hash bits. *)
Definition count_above (threshold : F) (l : list F) : nat :=
  length (filter (fun x => flt threshold x) l).

End Thresholds.

(** ** The [args] object and the branch of [execute_item_download] *)

Module Args.
Import Stdlib.Strings.String.

Inductive value : Type :=
| VNone
| VBool (b : bool)
| VFloat (x : float)
| VWords (words : list string).

(** The attributes of an object, by name. *)
Definition namespace : Type := list (string * value).

(** [getattr(args, name, default)] *)
Definition getattr (args : namespace) (name : string) (default : value)
    : value :=
  match find (fun attribute => String.eqb (fst attribute) name) args with
  | Some attribute => snd attribute
  | None => default
  end.

(** The truth value of an object in a condition. *)
Definition truthy (v : value) : bool :=
  match v with
  | VNone => false
  | VBool b => b
  | VFloat x => negb (x =? 0)%float
  | VWords words => match words with [] => false | _ :: _ => true end
  end.

(** The entries of [self.config] that [create_args_object] reads. *)
Record config : Type := {
  config_extract_frames : bool;
  config_include : value;
  config_ignore : value
}.

(** [Args(self.config)]: the attributes its [__init__] sets. *)
Definition create_args_object (c : config) : namespace :=
  [("extract_frames", VBool (config_extract_frames c));
   ("frames_per_video", VNone);
   ("include", config_include c);
   ("ignore", config_ignore c);
   ("disable_ui", VBool false)]%string.

(** What [execute_item_download] does with an item that has a download
    link, with the arguments it reads from [args]. *)
Inductive action : Type :=
| ExtractFramesSmart (max_frames min_quality_threshold cand_mult : value)
| ExtractFramesFromVideo (target_frames : value)
| Download.

Definition item_action (args : namespace) (is_video : bool) : action :=
  let extract_frames := getattr args "extract_frames" (VBool false) in
  let use_memory_extraction := getattr args "memory_extraction" (VBool true) in
  if truthy extract_frames && is_video then
    if truthy use_memory_extraction
    then ExtractFramesSmart
           (getattr args "max_frames_per_video" VNone)
           (getattr args "min_frame_quality" (VFloat 0.3))
           (getattr args "candidate_multiplier" (VFloat 3.0))
    else ExtractFramesFromVideo (getattr args "frames_per_video" VNone)
  else Download.

End Args.

(** * Properties *)

(** ** The two arithmetic instances *)

Example b64_of_int_100 : of_int (F := float) 100 = 100%float. Proof. reflexivity. Qed.
Example b64_of_int_neg : of_int (F := float) (-7) = (-7)%float. Proof. reflexivity. Qed.
Example b64_lit_0_01 : f0_01 (F := float) = 0.01%float. Proof. reflexivity. Qed.
Example b64_lit_0_99 : f0_99 (F := float) = 0.99%float. Proof. reflexivity. Qed.
Example b64_lit_0_4 : f0_4 (F := float) = 0.4%float. Proof. reflexivity. Qed.
Example b64_lit_0_3 : f0_3 (F := float) = 0.3%float. Proof. reflexivity. Qed.
Example b64_round_ties :
  map (pyround (F := float)) [0.5; 1.5; 2.5; 3.5; -0.5; -1.5; 2.4999; 2.5001; 1e3]%float
  = map Some [0; 2; 2; 4; 0; -2; 2; 3; 1000].
Proof. reflexivity. Qed.
Example b64_int_trunc :
  map (to_int (F := float)) [0.9; 1.5; -1.5; 10.5; 1e3; infinity; nan]%float
  = [Some 0; Some 1; Some (-1); Some 10; Some 1000; None; None].
Proof. reflexivity. Qed.

Module B64Facts.

Ltac case_bools :=
  repeat match goal with s : bool |- _ => destruct s end.

Ltac case_compare :=
  repeat match goal with
    | |- context [Z.compare ?a ?b] => destruct (Z.compare_spec a b)
    | |- context [Pos.compare ?a ?b] => destruct (Pos.compare_spec a b)
    | H : context [Z.compare ?a ?b] |- _ => destruct (Z.compare_spec a b)
    | H : context [Pos.compare ?a ?b] |- _ => destruct (Pos.compare_spec a b)
    end.

Ltac close_case :=
  cbn in *; try discriminate; try reflexivity; try lia.

Lemma SFcompare_Lt_trans x y z :
  SFcompare x y = Some Lt -> SFcompare y z = Some Lt ->
  SFcompare x z = Some Lt.
Proof.
  destruct x as [sx|sx| |sx mx ex], y as [sy|sy| |sy my ey],
           z as [sz|sz| |sz mz ez];
    cbn; try discriminate; try reflexivity;
    case_bools; try discriminate; try reflexivity.
  all: change (Pos.compare_cont Eq ?a ?b) with (Pos.compare a b).
  all: case_compare; close_case.
Qed.

Lemma SFcompare_Lt_asym x y :
  SFcompare x y = Some Lt -> SFcompare y x <> Some Lt.
Proof.
  destruct x as [sx|sx| |sx mx ex], y as [sy|sy| |sy my ey];
    cbn; try discriminate; case_bools; try discriminate.
  all: change (Pos.compare_cont Eq ?a ?b) with (Pos.compare a b).
  all: case_compare; close_case.
Qed.

(** Two numbers compare one way or the other. *)
Lemma SFcompare_total x y :
  SFcompare x x = Some Eq -> SFcompare y y = Some Eq ->
  SFcompare x y <> Some Lt ->
  SFcompare y x = Some Lt \/ SFcompare y x = Some Eq.
Proof.
  destruct x as [sx|sx| |sx mx ex], y as [sy|sy| |sy my ey];
    cbn; try discriminate; case_bools; try discriminate; auto;
    try (intros _ _ []; reflexivity).
  all: change (Pos.compare_cont Eq ?a ?b) with (Pos.compare a b).
  all: intros _ _; case_compare; cbn; auto; try lia;
    try (intros []; reflexivity).
Qed.

Lemma ltb_Lt x y : PrimFloat.ltb x y = true <-> SFcompare (Prim2SF x) (Prim2SF y) = Some Lt.
Proof.
  rewrite FloatAxioms.ltb_spec. unfold SFltb.
  destruct (SFcompare _ _) as [[]|]; split; congruence.
Qed.

Lemma leb_refl_Eq x :
  PrimFloat.leb x x = true -> SFcompare (Prim2SF x) (Prim2SF x) = Some Eq.
Proof.
  rewrite FloatAxioms.leb_spec. unfold SFleb.
  destruct (Prim2SF x) as [s|s| |s m e]; cbn; try discriminate;
    case_bools; try reflexivity.
  all: rewrite Z.compare_refl, Pos.compare_cont_refl; reflexivity.
Qed.

End B64Facts.

#[export] Instance binary64_order : PyFloatOrder float.
Proof.
  split; cbn [flt fle binary64].
  - intros x y Hxy. apply B64Facts.ltb_Lt in Hxy.
    destruct (PrimFloat.ltb y x) eqn:Hyx; [ | reflexivity].
    apply B64Facts.ltb_Lt in Hyx.
    now apply B64Facts.SFcompare_Lt_asym in Hxy.
  - intros x y z Hxy Hyz. apply B64Facts.ltb_Lt.
    apply B64Facts.ltb_Lt in Hxy, Hyz.
    eapply B64Facts.SFcompare_Lt_trans; eassumption.
  - intros x y Hx Hy Hxy.
    apply B64Facts.leb_refl_Eq in Hx, Hy.
    assert (Hn : SFcompare (Prim2SF x) (Prim2SF y) <> Some Lt).
    { intro Hlt. apply B64Facts.ltb_Lt in Hlt. congruence. }
    rewrite FloatAxioms.leb_spec. unfold SFleb.
    destruct (B64Facts.SFcompare_total _ _ Hx Hy Hn) as [-> | ->]; reflexivity.
Qed.

Module ExactFacts.
Import Exact.

Lemma Rltb_true x y : Rltb x y = true <-> (x < y)%R.
Proof. unfold Rltb. destruct (Rlt_dec x y); split; auto; discriminate. Qed.

Lemma Rltb_false x y : Rltb x y = false <-> (y <= x)%R.
Proof. unfold Rltb. destruct (Rlt_dec x y); split; try discriminate; auto; lra. Qed.

Lemma Rleb_true x y : Rleb x y = true <-> (x <= y)%R.
Proof. unfold Rleb. destruct (Rle_dec x y); split; auto; discriminate. Qed.

Lemma Rleb_false x y : Rleb x y = false <-> (y < x)%R.
Proof. unfold Rleb. destruct (Rle_dec x y); split; try discriminate; auto; lra. Qed.

End ExactFacts.

#[export] Instance exact_order : PyFloatOrder R.
Proof.
  split; cbn [flt fle exact].
  - intros x y Hxy. apply ExactFacts.Rltb_true in Hxy.
    apply ExactFacts.Rltb_false. lra.
  - intros x y z Hxy Hyz. apply ExactFacts.Rltb_true in Hxy, Hyz.
    apply ExactFacts.Rltb_true. lra.
  - intros x y _ _ Hxy. apply ExactFacts.Rltb_false in Hxy.
    now apply ExactFacts.Rleb_true.
Qed.

(** ** Lists and slices *)

Lemma len_nonneg {A : Type} (l : list A) : 0 <= len l.
Proof. unfold len. lia. Qed.

Lemma len_app {A : Type} (l1 l2 : list A) : len (l1 ++ l2) = len l1 + len l2.
Proof. unfold len. rewrite length_app. lia. Qed.

Lemma slice_to_nonneg {A : Type} (l : list A) (n : Z) :
  0 <= n -> slice_to l n = firstn (Z.to_nat n) l.
Proof. intro Hn. unfold slice_to. destruct (Z.ltb_spec n 0); [lia | reflexivity]. Qed.

Lemma slice_to_nil {A : Type} (n : Z) : slice_to (@nil A) n = [].
Proof. unfold slice_to. destruct (n <? 0); apply firstn_nil. Qed.

Lemma slice_to_prefix {A : Type} (l : list A) (n : Z) :
  exists more, l = slice_to l n ++ more.
Proof.
  unfold slice_to. destruct (n <? 0);
    eexists; symmetry; apply firstn_skipn.
Qed.

Lemma slice_to_len_le {A : Type} (l : list A) (n : Z) :
  len (slice_to l n) <= len l.
Proof.
  destruct (slice_to_prefix l n) as [more Hm].
  rewrite Hm at 2. rewrite len_app. pose proof (len_nonneg more). lia.
Qed.

Lemma slice_to_len {A : Type} (l : list A) (n : Z) :
  0 <= n -> len (slice_to l n) = Z.min n (len l).
Proof.
  intro Hn. rewrite slice_to_nonneg by assumption.
  unfold len. rewrite length_firstn. lia.
Qed.

Lemma slice_to_cons {A : Type} (x : A) (l : list A) (n : Z) :
  1 <= n -> slice_to (x :: l) n = x :: slice_to l (n - 1).
Proof.
  intro Hn. rewrite !slice_to_nonneg by lia.
  replace (Z.to_nat n) with (S (Z.to_nat (n - 1))) by lia. reflexivity.
Qed.

Lemma slice_to_In {A : Type} (l : list A) (n : Z) (x : A) :
  In x (slice_to l n) -> In x l.
Proof.
  destruct (slice_to_prefix l n) as [more Hm]. intro Hx.
  rewrite Hm. apply in_or_app. now left.
Qed.

(** ** The selector *)

Section SelectorFacts.
Context {F : Type} `{PyFloat F}.

Notation FC := (FrameCandidate F).

(** *** Sorting *)

Lemma insert_desc_In (c x : FC) (l : list FC) :
  In x (insert_desc c l) <-> x = c \/ In x l.
Proof.
  induction l as [ | y l IH]; cbn.
  - intuition congruence.
  - destruct (flt (quality_score y) (quality_score c)); cbn.
    + intuition congruence.
    + rewrite IH. intuition congruence.
Qed.

Lemma insert_desc_length (c : FC) (l : list FC) :
  length (insert_desc c l) = S (length l).
Proof.
  induction l as [ | y l IH]; cbn; [reflexivity | ].
  destruct (flt (quality_score y) (quality_score c)); cbn; congruence.
Qed.

Lemma fold_insert_In (l acc : list FC) (x : FC) :
  In x (fold_left (fun acc c => insert_desc c acc) l acc) <-> In x l \/ In x acc.
Proof.
  revert acc. induction l as [ | c l IH]; intro acc; cbn.
  - tauto.
  - rewrite IH, insert_desc_In. intuition congruence.
Qed.

Lemma fold_insert_length (l acc : list FC) :
  length (fold_left (fun acc c => insert_desc c acc) l acc)
  = (length l + length acc)%nat.
Proof.
  revert acc. induction l as [ | c l IH]; intro acc; cbn; [reflexivity | ].
  rewrite IH, insert_desc_length. lia.
Qed.

(** Sorting rearranges the candidates and nothing else. *)
Lemma insert_desc_perm (c : FC) (l : list FC) :
  Permutation (insert_desc c l) (c :: l).
Proof.
  induction l as [ | y l IH]; cbn; [reflexivity | ].
  destruct (flt (quality_score y) (quality_score c)); [reflexivity | ].
  rewrite IH. apply perm_swap.
Qed.

Lemma sort_by_quality_perm (l : list FC) : Permutation (sort_by_quality l) l.
Proof.
  unfold sort_by_quality.
  assert (Hacc : forall acc,
    Permutation (fold_left (fun acc c => insert_desc c acc) l acc) (l ++ acc)).
  { induction l as [ | c l IH]; intro acc; cbn; [reflexivity | ].
    rewrite IH, insert_desc_perm. symmetry. apply Permutation_middle. }
  rewrite Hacc. now rewrite app_nil_r.
Qed.

Lemma sort_by_quality_In (l : list FC) (x : FC) :
  In x (sort_by_quality l) <-> In x l.
Proof. unfold sort_by_quality. rewrite fold_insert_In. cbn. tauto. Qed.

Lemma sort_by_quality_len (l : list FC) : len (sort_by_quality l) = len l.
Proof. unfold sort_by_quality, len. rewrite fold_insert_length. cbn. lia. Qed.

Section Ordered.
Context `{!PyFloatOrder F}.

Lemma insert_desc_sorted (c : FC) (l : list FC) :
  StronglySorted not_below l -> StronglySorted not_below (insert_desc c l).
Proof.
  induction 1 as [ | x l Hs IH Hx]; cbn.
  - repeat constructor.
  - destruct (flt (quality_score x) (quality_score c)) eqn:Hxc.
    + constructor; [now constructor | ].
      constructor; [now apply flt_asym | ].
      rewrite Forall_forall in Hx |- *. intros y Hy.
      specialize (Hx y Hy). unfold not_below in *.
      destruct (flt (quality_score c) (quality_score y)) eqn:Hcy;
        [ | reflexivity].
      rewrite (flt_trans _ _ _ Hxc Hcy) in Hx. discriminate.
    + constructor; [assumption | ].
      rewrite Forall_forall in Hx |- *. intros y Hy.
      apply insert_desc_In in Hy. destruct Hy as [-> | Hy]; auto.
Qed.

Lemma sort_by_quality_sorted (l : list FC) :
  StronglySorted not_below (sort_by_quality l).
Proof.
  unfold sort_by_quality.
  assert (Hacc : StronglySorted not_below (@nil FC)) by constructor.
  revert Hacc. generalize (@nil FC) as acc.
  induction l as [ | c l IH]; intros acc Hacc; cbn; [assumption | ].
  apply IH. now apply insert_desc_sorted.
Qed.

(** The head of the sorted list is a best candidate of the list. *)
Lemma sort_by_quality_head (l : list FC) (best : FC) (rest : list FC) :
  sort_by_quality l = best :: rest ->
  (forall c, In c l -> fle (quality_score c) (quality_score c) = true) ->
  In best l /\
  forall c, In c l -> fle (quality_score c) (quality_score best) = true.
Proof.
  intros Hsort Hnum.
  assert (Hbest : In best l).
  { apply sort_by_quality_In. rewrite Hsort. now left. }
  split; [assumption | ]. intros c Hc.
  apply sort_by_quality_In in Hc. rewrite Hsort in Hc.
  destruct Hc as [<- | Hc]; [now apply Hnum | ].
  pose proof (sort_by_quality_sorted l) as Hs. rewrite Hsort in Hs.
  apply StronglySorted_inv in Hs. destruct Hs as [_ Hall].
  rewrite Forall_forall in Hall. specialize (Hall c Hc).
  apply fle_total; auto.
  apply Hnum. apply sort_by_quality_In. rewrite Hsort. now right.
Qed.
End Ordered.

(** *** The filter tiers *)

Lemma quality_filter_In (cands : list FC) (k : Z) (bmin bmax thr : F) (c : FC) :
  In c (quality_filter cands k bmin bmax thr) -> In c cands.
Proof.
  unfold quality_filter.
  repeat match goal with
    | |- context [match filter ?p cands with _ => _ end] =>
        let E := fresh "E" in
        destruct (filter p cands) eqn:E;
        [ | rewrite <- E; intro Hc; apply filter_In in Hc; tauto]
    end.
  apply slice_to_In.
Qed.

Lemma filter_nil_iff {A : Type} (p : A -> bool) (l : list A) :
  filter p l = [] <-> forall x, In x l -> p x = false.
Proof.
  induction l as [ | a l IH]; cbn.
  - tauto.
  - destruct (p a) eqn:Ha.
    + split; [discriminate | ]. intro Hall.
      rewrite (Hall a) in Ha by now left. discriminate.
    + rewrite IH. split.
      * intros Hall x [<- | Hx]; auto.
      * intros Hall x Hx. apply Hall. now right.
Qed.

Lemma quality_filter_nonempty (cands : list FC) (k : Z) (bmin bmax thr : F) :
  cands <> [] -> 1 <= k -> quality_filter cands k bmin bmax thr <> [].
Proof.
  intros Hne Hk. unfold quality_filter.
  repeat match goal with
    | |- context [match filter ?p cands with _ => _ end] =>
        destruct (filter p cands); [ | discriminate]
    end.
  destruct cands as [ | c cands]; [congruence | ].
  rewrite slice_to_cons; [discriminate | ].
  unfold len. cbn [length]. lia.
Qed.

(** *** The greedy loop *)

Lemma is_diverse_spec (min_hamm : Z) (candidate : FC) (chosen : list FC) :
  is_diverse min_hamm candidate chosen = true <->
  forall a, In a chosen -> min_hamm <= hamming (hash candidate) (hash a).
Proof.
  induction chosen as [ | a chosen IH]; cbn.
  - split; [contradiction | reflexivity].
  - destruct (Z.ltb_spec (hamming (hash candidate) (hash a)) min_hamm) as [Hlt | Hge].
    + split; [discriminate | ]. intro Hall.
      specialize (Hall a (or_introl eq_refl)). lia.
    + rewrite IH. split.
      * intros Hall x [<- | Hx]; auto.
      * intros Hall x Hx. apply Hall. now right.
Qed.

Lemma is_diverse_false (min_hamm : Z) (candidate : FC) (chosen : list FC) :
  is_diverse min_hamm candidate chosen = false <->
  exists a, In a chosen /\ hamming (hash candidate) (hash a) < min_hamm.
Proof.
  induction chosen as [ | a chosen IH]; cbn.
  - split; [discriminate | intros (a & [] & _)].
  - destruct (Z.ltb_spec (hamming (hash candidate) (hash a)) min_hamm) as [Hlt | Hge].
    + split; [ | reflexivity]. intros _. exists a. auto.
    + rewrite IH. split.
      * intros (x & Hx & Hlt). exists x. auto.
      * intros (x & [<- | Hx] & Hlt); [lia | ]. exists x. auto.
Qed.

Lemma greedy_loop_prefix (k min_hamm : Z) (rest chosen : list FC) :
  exists more, greedy_loop k min_hamm rest chosen = chosen ++ more.
Proof.
  revert chosen. induction rest as [ | c rest IH]; intro chosen; cbn.
  - exists []. now rewrite app_nil_r.
  - destruct (k <=? len chosen); [exists []; now rewrite app_nil_r | ].
    destruct (is_diverse min_hamm c chosen); [ | apply IH].
    destruct (IH (chosen ++ [c])) as [more ->].
    exists (c :: more). now rewrite <- app_assoc.
Qed.

Lemma greedy_loop_len (k min_hamm : Z) (rest chosen : list FC) :
  len (greedy_loop k min_hamm rest chosen) <= Z.max k (len chosen).
Proof.
  revert chosen. induction rest as [ | c rest IH]; intro chosen; cbn.
  - lia.
  - destruct (Z.leb_spec k (len chosen)) as [Hfull | Hroom]; [lia | ].
    destruct (is_diverse min_hamm c chosen).
    + specialize (IH (chosen ++ [c])). rewrite len_app in IH.
      unfold len in IH at 3. cbn [length] in IH. lia.
    + specialize (IH chosen). lia.
Qed.

Lemma greedy_select_len (k min_hamm : Z) (sorted : list FC) :
  len (greedy_select k min_hamm sorted) <= Z.max k 1.
Proof.
  destruct sorted as [ | best rest]; cbn.
  - unfold len. cbn. lia.
  - apply greedy_loop_len.
Qed.

Lemma greedy_select_head (k min_hamm : Z) (best : FC) (rest : list FC) :
  exists more, greedy_select k min_hamm (best :: rest) = best :: more.
Proof.
  cbn. destruct (greedy_loop_prefix k min_hamm rest [best]) as [more ->].
  now exists more.
Qed.

(** *** The conservative trim *)

Lemma conservative_trim_prefix (k : Z) (chosen : list FC) :
  exists more, chosen = conservative_trim k chosen ++ more.
Proof.
  unfold conservative_trim.
  destruct (_ && _); [apply slice_to_prefix | ].
  exists []. now rewrite app_nil_r.
Qed.

Lemma conservative_trim_len (k : Z) (chosen : list FC) :
  len (conservative_trim k chosen) <= len chosen.
Proof.
  destruct (conservative_trim_prefix k chosen) as [more Hm].
  rewrite Hm at 2. rewrite len_app. pose proof (len_nonneg more). lia.
Qed.

Lemma conservative_trim_head (k : Z) (best : FC) (more : list FC) :
  exists more', conservative_trim k (best :: more) = best :: more'.
Proof.
  unfold conservative_trim.
  destruct (_ && _); [ | now exists more].
  rewrite slice_to_cons by lia. eauto.
Qed.

(** *** The whole selector *)

Lemma select_diverse_topk_empty (k min_hamm : Z) (bmin bmax thr : F) :
  select_diverse_topk [] k min_hamm bmin bmax thr = [].
Proof. reflexivity. Qed.

(** With a budget of at least one frame the result respects it. *)
Lemma select_diverse_topk_within_budget (cands : list FC) (k min_hamm : Z)
    (bmin bmax thr : F) :
  1 <= k -> len (select_diverse_topk cands k min_hamm bmin bmax thr) <= k.
Proof.
  intro Hk. unfold select_diverse_topk.
  destruct cands as [ | c0 cands]; [unfold len; cbn; lia | ].
  destruct (is_static _ _).
  - rewrite slice_to_len by lia.
    pose proof (len_nonneg (sort_by_quality
      (quality_filter (c0 :: cands) k bmin bmax thr))). lia.
  - etransitivity; [apply conservative_trim_len | ].
    etransitivity; [apply greedy_select_len | ]. lia.
Qed.

(** The first frame returned is the head of the sorted survivors. *)
Lemma select_diverse_topk_head (cands : list FC) (k min_hamm : Z)
    (bmin bmax thr : F) (c0 best : FC) (rest : list FC) :
  sort_by_quality (quality_filter (c0 :: cands) k bmin bmax thr) = best :: rest ->
  exists more,
    select_diverse_topk (c0 :: cands) k min_hamm bmin bmax thr = best :: more.
Proof.
  intro Hsort. unfold select_diverse_topk. rewrite Hsort.
  destruct (is_static _ _).
  - rewrite slice_to_cons by lia. eauto.
  - destruct (greedy_select_head k min_hamm best rest) as [more ->].
    apply conservative_trim_head.
Qed.

(** With a budget of zero frames and a candidate in the brightness band,
    one frame is returned all the same. *)
Lemma select_diverse_topk_budget_zero (cands : list FC) (min_hamm : Z)
    (bmin bmax thr : F) :
  (exists c, In c cands /\ in_band bmin bmax c = true) ->
  len (select_diverse_topk cands 0 min_hamm bmin bmax thr) = 1.
Proof.
  intros (c & Hc & Hband).
  assert (Hkept : quality_filter cands 0 bmin bmax thr <> []).
  { unfold quality_filter.
    repeat match goal with
      | |- context [match filter ?p cands with _ => _ end] =>
          let E := fresh "E" in
          destruct (filter p cands) eqn:E; [ | discriminate]
      end.
    match goal with
    | Hnil : filter (in_band bmin bmax) cands = [] |- _ =>
        rewrite filter_nil_iff in Hnil; rewrite (Hnil c Hc) in Hband
    end.
    discriminate. }
  destruct cands as [ | c0 cands]; [contradiction | ].
  unfold select_diverse_topk.
  destruct (sort_by_quality (quality_filter (c0 :: cands) 0 bmin bmax thr))
    as [ | best rest] eqn:Hsorted.
  - exfalso. apply Hkept.
    pose proof (sort_by_quality_len
                  (quality_filter (c0 :: cands) 0 bmin bmax thr)) as Hl.
    rewrite Hsorted in Hl. unfold len in Hl. cbn [length] in Hl.
    destruct (quality_filter (c0 :: cands) 0 bmin bmax thr);
      [reflexivity | cbn [length] in Hl; lia].
  - destruct (is_static _ _).
    + rewrite slice_to_cons, slice_to_nonneg by lia. reflexivity.
    + assert (Hone : greedy_select 0 min_hamm (best :: rest) = [best]).
      { cbn. destruct rest; reflexivity. }
      rewrite Hone. unfold conservative_trim.
      now rewrite andb_false_r.
Qed.

End SelectorFacts.

Section SelectorClaims.
Context {F : Type} `{PyFloat F} `{!PyFloatOrder F}.

Notation FC := (FrameCandidate F).

Lemma greedy_loop_walk (k min_hamm : Z) (rest chosen : list FC) :
  greedy_walk k min_hamm rest chosen (greedy_loop k min_hamm rest chosen).
Proof.
  revert chosen. induction rest as [ | c rest IH]; intro chosen; cbn.
  - constructor.
  - destruct (Z.leb_spec k (len chosen)) as [Hfull | Hroom].
    + now constructor.
    + destruct (is_diverse min_hamm c chosen) eqn:Hd.
      * apply walk_accept; auto. now apply is_diverse_spec.
      * apply walk_reject; auto. now apply is_diverse_false.
Qed.

Lemma greedy_walk_functional (k min_hamm : Z) (rest chosen f1 f2 : list FC) :
  greedy_walk k min_hamm rest chosen f1 ->
  greedy_walk k min_hamm rest chosen f2 -> f1 = f2.
Proof.
  intro W1. revert f2.
  induction W1 as [chosen | c rest chosen Hfull
                  | c rest chosen final Hroom Hfar W1 IH
                  | c rest chosen final Hroom Hnear W1 IH];
    intros f2 W2; inversion W2; subst; auto; try lia.
  - match goal with
    | Hn : exists a, In a chosen /\ _ |- _ => destruct Hn as (a & Ha & Hlt)
    end.
    specialize (Hfar a Ha). lia.
  - destruct Hnear as (a & Ha & Hlt).
    match goal with
    | Hf : forall a, In a chosen -> _ |- _ => specialize (Hf a Ha)
    end.
    lia.
Qed.

Lemma sum_hamming_app (ps qs : list (FC * FC)) :
  sum_hamming (ps ++ qs) = sum_hamming ps + sum_hamming qs.
Proof.
  induction ps as [ | p ps IH]; [reflexivity | ].
  cbn [app]. unfold sum_hamming in *. cbn [fold_right]. rewrite IH. lia.
Qed.

Lemma inner_pairs_spec (x : FC) (rest : list FC) (acc : Z * Z) :
  inner_pairs x rest acc
  = (fst acc + sum_hamming (map (pair x) rest),
     snd acc + len (map (pair x) rest)).
Proof.
  revert acc. induction rest as [ | y rest IH]; intros [t0 p0].
  - cbn. unfold len. cbn. f_equal; lia.
  - cbn [inner_pairs]. rewrite IH. unfold len, sum_hamming.
    cbn [map fold_right fst snd length]. f_equal; lia.
Qed.

Lemma outer_pairs_spec (l : list FC) (acc : Z * Z) :
  outer_pairs l acc
  = (fst acc + sum_hamming (all_pairs l), snd acc + len (all_pairs l)).
Proof.
  revert acc. induction l as [ | x rest IH]; intros [t0 p0].
  - cbn. unfold len. cbn. f_equal; lia.
  - cbn [outer_pairs all_pairs].
    rewrite IH, inner_pairs_spec, sum_hamming_app, len_app.
    cbn [fst snd]. f_equal; lia.
Qed.

Lemma all_pairs_len (l : list FC) :
  2 * len (all_pairs l) = len l * (len l - 1).
Proof.
  induction l as [ | x rest IH]; [reflexivity | ].
  cbn [all_pairs]. rewrite len_app. unfold len in *.
  rewrite length_map. cbn [length]. rewrite Nat2Z.inj_succ.
  set (n := Z.of_nat (length rest)) in *.
  set (p := Z.of_nat (length (all_pairs rest))) in *.
  clearbody n p. nia.
Qed.

Lemma sorted_nonempty (cands : list FC) (k : Z) (bmin bmax thr : F) :
  1 <= len (sort_by_quality (quality_filter cands k bmin bmax thr)) ->
  cands <> [].
Proof.
  intros Hlen ->. rewrite sort_by_quality_len in Hlen.
  change (quality_filter [] k bmin bmax thr)
    with (slice_to (@nil FC) (Z.min (Z.min 2 (len (@nil FC))) k)) in Hlen.
  rewrite slice_to_nil in Hlen. unfold len in Hlen. cbn in Hlen. lia.
Qed.

(** C4: when at least three candidates survive the filter, the selector
    averages the Hamming distance over all pairs of the best
    [min(8, count)] of them, and when that average is strictly below
    [0.4 * min_hamm] it returns exactly the best of the survivors. *)
Theorem static_video_single_frame (cands : list FC) (k min_hamm : Z)
    (bmin bmax thr : F) :
  let sorted := sort_by_quality (quality_filter cands k bmin bmax thr) in
  let top := firstn (Z.to_nat (Z.min 8 (len sorted))) sorted in
  3 <= len sorted ->
  len top = Z.min 8 (len sorted) /\
  2 * len (all_pairs top) = len top * (len top - 1) /\
  avg_distance top
    = fdiv (of_int (sum_hamming (all_pairs top))) (of_int (len (all_pairs top))) /\
  (flt (avg_distance top) (fmul (of_int min_hamm) f0_4) = true ->
   exists best rest,
     sorted = best :: rest /\
     (forall c, In c sorted -> not_below best c) /\
     select_diverse_topk cands k min_hamm bmin bmax thr = [best]).
Proof.
  intros sorted top Hlen.
  assert (Htop : len top = Z.min 8 (len sorted)).
  { unfold top, len. rewrite length_firstn. unfold len in Hlen. lia. }
  pose proof (all_pairs_len top) as Hpairs.
  repeat split; auto.
  - unfold avg_distance. rewrite outer_pairs_spec. cbn [fst snd].
    rewrite !Z.add_0_l.
    destruct (Z.ltb_spec 0 (len (all_pairs top))) as [ | Hno]; [reflexivity | ].
    rewrite Htop in Hpairs. nia.
  - intro Hbelow.
    assert (Hne : cands <> []) by (apply (sorted_nonempty cands k bmin bmax thr); fold sorted; lia).
    destruct sorted as [ | best rest] eqn:Hsorted; [unfold len in Hlen; cbn in Hlen; lia | ].
    exists best, rest. split; [reflexivity | ]. split.
    + intros c [<- | Hc].
      * unfold not_below. destruct (flt (quality_score best) (quality_score best)) eqn:E; [ | reflexivity].
        now rewrite (flt_asym _ _ E) in E.
      * pose proof (sort_by_quality_sorted (quality_filter cands k bmin bmax thr)) as Hs.
        fold sorted in Hs. rewrite Hsorted in Hs.
        apply StronglySorted_inv in Hs. destruct Hs as [_ Hall].
        rewrite Forall_forall in Hall. auto.
    + unfold select_diverse_topk. destruct cands as [ | c0 cands]; [congruence | ].
      fold sorted. rewrite Hsorted.
      assert (Hstatic : is_static (best :: rest) min_hamm = true).
      { unfold is_static. destruct (Z.leb_spec 3 (len (best :: rest))); [ | lia].
        rewrite slice_to_nonneg by (unfold len; lia). exact Hbelow. }
      rewrite Hstatic. rewrite slice_to_cons by lia.
      now rewrite slice_to_nonneg by lia.
Qed.
(** C5: the filter keeps the candidates of the first non-empty tier:
    (a) in the brightness band with quality at least the threshold,
    (b) in the band with quality at least half the threshold,
    (c) in the band, (d) the first [min(2, k)] candidates of the input;
    a laxer tier is used only when no candidate passes a stricter one.
    [filter] keeps the input order. *)
Theorem quality_filter_tiers (cands : list FC) (k : Z) (bmin bmax thr : F) :
  let tier_a := passes bmin bmax thr in
  let tier_b := passes bmin bmax (fmul thr f0_5) in
  let tier_c := in_band bmin bmax in
  let kept := quality_filter cands k bmin bmax thr in
  ((exists x, In x cands /\ tier_a x = true) -> kept = filter tier_a cands) /\
  ((forall x, In x cands -> tier_a x = false) ->
   (exists x, In x cands /\ tier_b x = true) -> kept = filter tier_b cands) /\
  ((forall x, In x cands -> tier_a x = false) ->
   (forall x, In x cands -> tier_b x = false) ->
   (exists x, In x cands /\ tier_c x = true) -> kept = filter tier_c cands) /\
  ((forall x, In x cands -> tier_a x = false) ->
   (forall x, In x cands -> tier_b x = false) ->
   (forall x, In x cands -> tier_c x = false) ->
   0 <= k ->
   kept = firstn (Z.to_nat (Z.min 2 k)) cands /\ len kept <= Z.min 2 k).
Proof.
  intros tier_a tier_b tier_c kept.
  assert (Hsome : forall (p : FC -> bool),
    (exists x, In x cands /\ p x = true) -> filter p cands <> []).
  { intros p (x & Hx & Hp) Hnil.
    rewrite filter_nil_iff in Hnil. rewrite (Hnil x Hx) in Hp. discriminate. }
  unfold kept, quality_filter. fold tier_a tier_b tier_c.
  split; [ | split; [ | split]].
  - intro Ha. apply Hsome in Ha. now destruct (filter tier_a cands).
  - intros Ha Hb. apply filter_nil_iff in Ha. rewrite Ha.
    apply Hsome in Hb. now destruct (filter tier_b cands).
  - intros Ha Hb Hc. apply filter_nil_iff in Ha, Hb. rewrite Ha, Hb.
    apply Hsome in Hc. now destruct (filter tier_c cands).
  - intros Ha Hb Hc Hk. apply filter_nil_iff in Ha, Hb, Hc.
    rewrite Ha, Hb, Hc. pose proof (len_nonneg cands) as Hlen. split.
    + rewrite slice_to_nonneg by lia.
      rewrite <- !Z.min_assoc, (Z.min_comm (len cands)), Z.min_assoc.
      rewrite Z2Nat.inj_min. unfold len. rewrite Nat2Z.id.
      rewrite <- firstn_firstn. rewrite firstn_all. reflexivity.
    + rewrite slice_to_len by lia. lia.
Qed.

(** C6: off the static path, the best survivor is kept; the others are
    walked in descending quality order and one is accepted only when it
    is at least [min_hamm] away from every accepted frame, until [k] are
    accepted or the list ends; then, when [accepted / k < 0.3] and more
    than two were accepted, only the first [max(1, accepted // 2)] stay. *)
Theorem greedy_then_trim (cands : list FC) (k min_hamm : Z) (bmin bmax thr : F) :
  let sorted := sort_by_quality (quality_filter cands k bmin bmax thr) in
  forall best rest,
  sorted = best :: rest ->
  is_static sorted min_hamm = false ->
  StronglySorted not_below sorted /\
  exists accepted,
    let chosen := best :: accepted in
    let count := len chosen in
    greedy_walk k min_hamm rest [best] chosen /\
    (forall other, greedy_walk k min_hamm rest [best] other -> other = chosen) /\
    count <= Z.max k 1 /\
    (0 < k -> flt (fdiv (of_int count) (of_int k)) f0_3 = true -> 2 < count ->
     select_diverse_topk cands k min_hamm bmin bmax thr
     = firstn (Z.to_nat (Z.max 1 (count / 2))) chosen) /\
    (k <= 0 \/ flt (fdiv (of_int count) (of_int k)) f0_3 = false \/ count <= 2 ->
     select_diverse_topk cands k min_hamm bmin bmax thr = chosen).
Proof.
  intros sorted best rest Hsorted Hdyn.
  split; [apply sort_by_quality_sorted | ].
  assert (Hne : cands <> []).
  { apply (sorted_nonempty cands k bmin bmax thr). fold sorted.
    rewrite Hsorted. unfold len. cbn [length]. lia. }
  destruct (greedy_select_head k min_hamm best rest) as [accepted Hacc].
  exists accepted. cbn zeta.
  pose proof (greedy_loop_walk k min_hamm rest [best]) as Hwalk.
  change (greedy_loop k min_hamm rest [best])
    with (greedy_select k min_hamm (best :: rest)) in Hwalk.
  rewrite Hacc in Hwalk.
  pose proof (greedy_select_len k min_hamm (best :: rest)) as Hlen.
  rewrite Hacc in Hlen.
  assert (Hsel : select_diverse_topk cands k min_hamm bmin bmax thr
                 = conservative_trim k (best :: accepted)).
  { unfold select_diverse_topk. destruct cands as [ | c0 cands]; [congruence | ].
    fold sorted. rewrite Hdyn, Hsorted, Hacc. reflexivity. }
  repeat split; auto.
  - intros other Hother. eapply greedy_walk_functional; eassumption.
  - intros Hk Hratio Hcount. rewrite Hsel. unfold conservative_trim.
    destruct (Z.ltb_spec 0 k); [ | lia]. rewrite Hratio.
    destruct (Z.ltb_spec 2 (len (best :: accepted))); [ | lia].
    cbn [andb]. apply slice_to_nonneg. lia.
  - intros Hno. rewrite Hsel. unfold conservative_trim.
    destruct (Z.ltb_spec 2 (len (best :: accepted))) as [Hmany | Hfew];
      [ | now rewrite andb_false_r].
    destruct Hno as [Hk | [Hratio | Hcount]]; [lia | | lia].
    destruct (Z.ltb_spec 0 k); [ | lia]. now rewrite Hratio.
Qed.

(** C10: for a non-empty candidate list and [k >= 1] the result is not
    empty and starts with a survivor of the filter whose quality score
    no other survivor exceeds. *)
Theorem select_diverse_topk_best_first (cands : list FC) (k min_hamm : Z)
    (bmin bmax thr : F) :
  cands <> [] -> 1 <= k ->
  (forall c, In c cands -> fle (quality_score c) (quality_score c) = true) ->
  exists best more,
    select_diverse_topk cands k min_hamm bmin bmax thr = best :: more /\
    In best (quality_filter cands k bmin bmax thr) /\
    forall c, In c (quality_filter cands k bmin bmax thr) ->
      fle (quality_score c) (quality_score best) = true.
Proof.
  intros Hne Hk Hnum.
  pose proof (quality_filter_nonempty cands k bmin bmax thr Hne Hk) as Hkept.
  destruct (sort_by_quality (quality_filter cands k bmin bmax thr))
    as [ | best rest] eqn:Hsorted.
  - exfalso. apply Hkept.
    pose proof (sort_by_quality_len (quality_filter cands k bmin bmax thr)) as Hl.
    rewrite Hsorted in Hl. unfold len in Hl. cbn in Hl.
    destruct (quality_filter cands k bmin bmax thr); [reflexivity | cbn in Hl; lia].
  - destruct cands as [ | c0 cands]; [congruence | ].
    destruct (select_diverse_topk_head cands k min_hamm bmin bmax thr
                c0 best rest Hsorted) as [more Hsel].
    exists best, more. split; [assumption | ].
    apply (sort_by_quality_head _ best rest Hsorted).
    intros c Hc. apply Hnum. eapply quality_filter_In; eassumption.
Qed.

End SelectorClaims.

(** *** The selector on binary64 inputs *)

(** C1: a frame budget of zero, as [extract_frames_from_video] passes it
    on for [target_frames=0] on a 100-second video: the schedule returns
    the override 0, the sampler returns the midpoint, and the selector,
    given that one well-lit frame and [k = 0], returns it: one frame,
    more than [k].  The best frame is appended before the budget is
    looked at.  The empty list gives the empty result and budgets of one
    frame or more are respected ([select_diverse_topk_empty],
    [select_diverse_topk_within_budget]). *)
Theorem select_diverse_topk_zero_budget :
  (forall log10 : float -> float,
     compute_max_frames_by_schedule log10 (Some 100%float) (Some 0) = Some 0) /\
  sample_candidate_timestamps (Some 100%float) 0 4%float 200
  = Some [50%float] /\
  select_diverse_topk Samples.lone 0 12 0.08%float 0.98%float 0.3%float
  = Samples.lone /\
  ~ len (select_diverse_topk Samples.lone 0 12 0.08%float 0.98%float 0.3%float)
    <= 0.
Proof. repeat split; try reflexivity. vm_compute. congruence. Qed.

Lemma static_video_single_frame_witness :
  select_diverse_topk Samples.still 5 12 0.08%float 0.98%float 0.3%float
  = [Samples.frame 2 3.0 0.5 1].
Proof.
  destruct (static_video_single_frame
              Samples.still 5 12 0.08%float 0.98%float 0.3%float)
    as (_ & _ & _ & Hret).
  - vm_compute. discriminate.
  - destruct (Hret eq_refl) as (best & rest & Hsorted & _ & Hsel).
    injection Hsorted as <- _. exact Hsel.
Defined.

Lemma quality_filter_tiers_witness :
  quality_filter Samples.dark 5 0.08%float 0.98%float 0.3%float
  = firstn 2 Samples.dark.
Proof.
  assert (Hall : forall p : FrameCandidate float -> bool,
            forallb (fun x => negb (p x)) Samples.dark = true ->
            forall x, In x Samples.dark -> p x = false).
  { intros p Hp x Hx. rewrite forallb_forall in Hp.
    specialize (Hp x Hx). now destruct (p x). }
  destruct (quality_filter_tiers Samples.dark 5 0.08%float 0.98%float 0.3%float)
    as (_ & _ & _ & Hd).
  destruct Hd as [Hkept _]; try (apply Hall; reflexivity); [lia | exact Hkept].
Defined.

Lemma greedy_then_trim_witness :
  select_diverse_topk Samples.sparse 50 12 0.08%float 0.98%float 0.3%float
  = [Samples.frame 1 8.0 0.5 0; Samples.frame 2 7.0 0.5 20].
Proof.
  destruct (greedy_then_trim Samples.sparse 50 12 0.08%float 0.98%float 0.3%float
              (Samples.frame 1 8.0 0.5 0) (tl Samples.sparse))
    as (_ & accepted & Hwalk & Hunique & _ & Htrim & _);
    [vm_compute; reflexivity | vm_compute; reflexivity | ].
  assert (Hacc : Samples.frame 1 8.0 0.5 0 :: accepted
                 = firstn 4 Samples.sparse).
  { symmetry. apply Hunique.
    exact (greedy_loop_walk 50 12 (tl Samples.sparse) [Samples.frame 1 8.0 0.5 0]). }
  rewrite Hacc in Htrim. apply Htrim; [lia | reflexivity | vm_compute; reflexivity].
Defined.

Lemma select_diverse_topk_best_first_witness :
  exists more,
    select_diverse_topk Samples.varied 2 12 0.08%float 0.98%float 0.3%float
    = Samples.frame 2 3.0 0.5 20 :: more.
Proof.
  destruct (select_diverse_topk_best_first
              Samples.varied 2 12 0.08%float 0.98%float 0.3%float)
    as (best & more & Hsel & _ & _).
  - discriminate.
  - lia.
  - intros c Hc. cbn in Hc.
    destruct Hc as [<- | [<- | [<- | []]]]; reflexivity.
  - exists more. rewrite Hsel. f_equal.
    assert (Hhd : hd best (select_diverse_topk Samples.varied 2 12
                             0.08%float 0.98%float 0.3%float) = best)
      by now rewrite Hsel.
    rewrite <- Hhd. reflexivity.
Defined.

(** ** The frame-count schedule *)

(** C2: without an override the schedule takes the values of the table
    at 10, 30, 60, 120, 300 and 600 seconds; an override is returned as it
    is, whatever the duration; without override and duration the result
    is 15.  The table is evaluated in binary64, where [math.log10] is not
    reached. *)
Theorem schedule_table :
  (forall log10 : float -> float,
     map (fun d => compute_max_frames_by_schedule log10 (Some d) None)
         [10; 30; 60; 120; 300; 600]%float
     = map Some [3; 5; 10; 15; 20; 30]) /\
  (forall (F : Type) (ops : PyFloat F) (log10 : F -> F)
          (duration : option F) (user_max : Z),
     compute_max_frames_by_schedule log10 duration (Some user_max)
     = Some user_max) /\
  (forall log10 : float -> float,
     compute_max_frames_by_schedule log10 (Some 5%float) (Some 7) = Some 7) /\
  (forall (F : Type) (ops : PyFloat F) (log10 : F -> F),
     compute_max_frames_by_schedule log10 None None = Some 15).
Proof. repeat split. Qed.

(** *** Rounding in exact arithmetic *)

Module RoundFacts.
Import Exact ExactFacts SchedulePieces.

#[local] Open Scope R_scope.

Lemma round_half_even_bounds (x : R) :
  x - 1 / 2 <= IZR (round_half_even x) <= x + 1 / 2.
Proof.
  unfold round_half_even. pose proof (Zfloor_bound x) as [Hlo Hhi].
  destruct (Rlt_dec _ _) as [Hdown | Hnd].
  - lra.
  - destruct (Rlt_dec _ _) as [Hup | Hnu].
    + rewrite plus_IZR. lra.
    + destruct (Z.even (Zfloor x)); [ | rewrite plus_IZR]; lra.
Qed.

Lemma round_half_even_mono (x y : R) :
  x <= y -> (round_half_even x <= round_half_even y)%Z.
Proof.
  intro Hxy. pose proof (Zfloor_le x y Hxy) as Hfl.
  pose proof (Zfloor_bound x) as [Hxlo Hxhi].
  pose proof (Zfloor_bound y) as [Hylo Hyhi].
  destruct (Z.eq_dec (Zfloor x) (Zfloor y)) as [Heq | Hne].
  - unfold round_half_even. rewrite <- Heq in *.
    repeat destruct (Rlt_dec _ _);
      try destruct (Z.even (Zfloor x));
      first [lia | exfalso; lra].
  - assert (Hstep : (Zfloor x + 1 <= Zfloor y)%Z) by lia.
    assert (Hx : (round_half_even x <= Zfloor x + 1)%Z).
    { unfold round_half_even. repeat destruct (Rlt_dec _ _); try lia.
      destruct (Z.even (Zfloor x)); lia. }
    assert (Hy : (Zfloor y <= round_half_even y)%Z).
    { unfold round_half_even. repeat destruct (Rlt_dec _ _); try lia.
      destruct (Z.even (Zfloor y)); lia. }
    lia.
Qed.

Lemma round_half_even_IZR (n : Z) : round_half_even (IZR n) = n.
Proof.
  unfold round_half_even. rewrite ZfloorZ.
  destruct (Rlt_dec _ _) as [ | Hn]; [reflexivity | lra].
Qed.

Lemma round_half_even_le (x : R) (n : Z) :
  x <= IZR n -> (round_half_even x <= n)%Z.
Proof.
  intro Hx. rewrite <- (round_half_even_IZR n). now apply round_half_even_mono.
Qed.

Lemma round_half_even_ge (x : R) (n : Z) :
  IZR n <= x -> (n <= round_half_even x)%Z.
Proof.
  intro Hx. rewrite <- (round_half_even_IZR n) at 1. now apply round_half_even_mono.
Qed.

Lemma trunc_nonneg (x : R) : 0 <= x -> trunc x = Zfloor x.
Proof. intro Hx. unfold trunc. destruct (Rle_dec 0 x); [reflexivity | lra]. Qed.

Lemma trunc_IZR (n : Z) : trunc (IZR n) = n.
Proof.
  unfold trunc, Zceil. destruct (Rle_dec 0 (IZR n)).
  - apply ZfloorZ.
  - rewrite <- opp_IZR, ZfloorZ. lia.
Qed.

Lemma ln_10_pos : 0 < ln 10.
Proof. rewrite <- ln_1. apply ln_increasing; lra. Qed.

Lemma log10_mono (x y : R) : 0 < x -> x <= y -> log10 x <= log10 y.
Proof.
  intros Hx Hxy. unfold log10. apply Rmult_le_compat_r.
  - left. apply Rinv_0_lt_compat, ln_10_pos.
  - destruct Hxy as [Hlt | ->]; [left; now apply ln_increasing | right; reflexivity].
Qed.

Lemma log10_nonneg (x : R) : 1 <= x -> 0 <= log10 x.
Proof.
  intro Hx. replace 0 with (log10 1).
  - apply log10_mono; lra.
  - unfold log10. rewrite ln_1. lra.
Qed.

Lemma beyond_bounds (d : R) : 600 < d -> (30 <= beyond d <= 50)%Z.
Proof.
  intro Hd. unfold beyond.
  assert (Hlog : 0 <= 10 * log10 (1 + (d - 600) / 600)).
  { pose proof (log10_nonneg (1 + (d - 600) / 600)). lra. }
  rewrite trunc_nonneg by assumption.
  assert (0 <= Zfloor (10 * log10 (1 + (d - 600) / 600)))%Z.
  { apply Zfloor_lub. exact Hlog. }
  lia.
Qed.

Lemma beyond_mono (d1 d2 : R) :
  600 < d1 -> d1 <= d2 -> (beyond d1 <= beyond d2)%Z.
Proof.
  intros Hd1 Hd12. unfold beyond.
  assert (Hl1 : 0 <= 10 * log10 (1 + (d1 - 600) / 600)).
  { pose proof (log10_nonneg (1 + (d1 - 600) / 600)). lra. }
  assert (Hl2 : 0 <= 10 * log10 (1 + (d2 - 600) / 600)).
  { pose proof (log10_nonneg (1 + (d2 - 600) / 600)). lra. }
  rewrite !trunc_nonneg by assumption.
  assert (Hfl : (Zfloor (10 * log10 (1 + (d1 - 600) / 600))
                 <= Zfloor (10 * log10 (1 + (d2 - 600) / 600)))%Z).
  { apply Zfloor_le.
    pose proof (log10_mono (1 + (d1 - 600) / 600) (1 + (d2 - 600) / 600)).
    lra. }
  lia.
Qed.

End RoundFacts.

(** *** The schedule in exact arithmetic *)

Section ScheduleExact.
Import Exact ExactFacts SchedulePieces RoundFacts.

#[local] Open Scope R_scope.

Lemma schedule_piece (d : R) :
  exists n lo hi,
    compute_max_frames_by_schedule log10 (Some d) None = Some n /\
    piece d n lo hi.
Proof.
  unfold compute_max_frames_by_schedule, segment.
  cbn [fle fadd fsub fmul fdiv of_int pyround to_int exact].
  repeat match goal with
    | |- context [Rleb d ?b] =>
        let E := fresh "E" in
        destruct (Rleb d b) eqn:E;
        [apply Rleb_true in E | apply Rleb_false in E]
    end.
  - exists 3%Z, 3%Z, 3%Z. split; [reflexivity | now constructor].
  - eexists _, 3%Z, 5%Z. split; [reflexivity | ]. apply piece_30; [lra | reflexivity].
  - eexists _, 5%Z, 10%Z. split; [reflexivity | ]. apply piece_60; [lra | reflexivity].
  - eexists _, 10%Z, 15%Z. split; [reflexivity | ]. apply piece_120; [lra | reflexivity].
  - eexists _, 15%Z, 20%Z. split; [reflexivity | ]. apply piece_300; [lra | reflexivity].
  - eexists _, 20%Z, 30%Z. split; [reflexivity | ]. apply piece_600; [lra | reflexivity].
  - eexists _, 30%Z, 50%Z. split; [reflexivity | ]. apply piece_beyond; [lra | reflexivity].
Qed.

Lemma piece_range (d : R) (n lo hi : Z) : piece d n lo hi -> (lo <= n <= hi)%Z.
Proof.
  destruct 1 as [H1 -> | H1 -> | H1 -> | H1 -> | H1 -> | H1 -> | H1 ->];
    try lia;
    try (split; [apply round_half_even_ge | apply round_half_even_le];
         unfold linear; lra).
  now apply beyond_bounds.
Qed.

Lemma piece_monotone (d1 d2 : R) (n1 n2 lo1 hi1 lo2 hi2 : Z) :
  d1 <= d2 -> piece d1 n1 lo1 hi1 -> piece d2 n2 lo2 hi2 -> (n1 <= n2)%Z.
Proof.
  intros Hd P1 P2.
  pose proof (piece_range _ _ _ _ P1) as R1.
  pose proof (piece_range _ _ _ _ P2) as R2.
  destruct P1 as [H1 E1 | H1 E1 | H1 E1 | H1 E1 | H1 E1 | H1 E1 | H1 E1];
    destruct P2 as [H2 E2 | H2 E2 | H2 E2 | H2 E2 | H2 E2 | H2 E2 | H2 E2];
    first
      [ lia
      | exfalso; lra
      | rewrite E1, E2; apply round_half_even_mono; unfold linear; lra
      | rewrite E1, E2; apply beyond_mono; lra ].
Qed.



(** The table of the schedule holds in exact arithmetic as well. *)
Lemma schedule_table_exact :
  map (fun d => compute_max_frames_by_schedule log10 (Some (IZR d)) None)
      [10; 30; 60; 120; 300; 600]%Z
  = map Some [3; 5; 10; 15; 20; 30]%Z.
Proof.
  cbn [map]. repeat f_equal.
  all: match goal with
       | |- compute_max_frames_by_schedule _ (Some ?d) None = _ =>
           destruct (schedule_piece d) as (n & lo & hi & -> & P)
       end; f_equal.
  all: destruct P as [H1 -> | H1 -> | H1 -> | H1 -> | H1 -> | H1 -> | H1 ->];
    try (exfalso; lra); try reflexivity.
  all: unfold linear;
    match goal with
    | |- round_half_even ?e = ?v =>
        replace e with (IZR v) by lra; apply round_half_even_IZR
    end.
Qed.

End ScheduleExact.

(** In binary64 the schedule is evaluated on the durations 0, 0.25, 0.5,
    ..., 600 seconds, where [math.log10] is not reached: it never goes
    down there either. *)
Example schedule_grid_b64 (log10 : float -> float) :
  nondecreasing
    (map (fun i => compute_max_frames_by_schedule log10
                     (Some (fdiv (of_int i) (of_int 4))) None)
         (range 2401)) = true.
Proof. vm_compute. reflexivity. Qed.

(** ** The timestamp sampler *)

Lemma range_length (n : Z) : length (range n) = Z.to_nat n.
Proof. unfold range. now rewrite length_map, length_seq. Qed.

Lemma range_nth (n i : Z) :
  0 <= i < n -> nth (Z.to_nat i) (range n) 0 = i.
Proof.
  intro Hi. unfold range.
  rewrite (nth_indep _ 0 (Z.of_nat 0)) by (rewrite length_map, length_seq; lia).
  rewrite map_nth, seq_nth by lia. lia.
Qed.

Section SamplerExact.
Import Exact ExactFacts RoundFacts.

#[local] Open Scope R_scope.

Lemma pymin_Rmin (a b : R) : pymin a b = Rmin a b.
Proof.
  unfold pymin, Rmin. cbn [flt exact]. unfold Rltb.
  destruct (Rlt_dec b a), (Rle_dec a b); try reflexivity; lra.
Qed.

Lemma pymax_Rmax (a b : R) : pymax a b = Rmax a b.
Proof.
  unfold pymax, Rmax. cbn [flt exact]. unfold Rltb.
  destruct (Rlt_dec a b), (Rle_dec a b); try reflexivity; lra.
Qed.

(** [start + i * step] for [i = a, a + 1, ...] rises when [step > 0]. *)
Lemma increasing_affine (start step : R) (count a : nat) :
  0 < step ->
  strictly_increasing
    (map (fun i => start + IZR i * step) (map Z.of_nat (seq a count))) = true.
Proof.
  intro Hstep. revert a.
  induction count as [ | count IH]; intro a; [reflexivity | ].
  destruct count as [ | count]; [reflexivity | ].
  specialize (IH (S a)).
  cbn [seq map strictly_increasing] in IH |- *. rewrite IH.
  rewrite andb_true_r. cbn [flt exact]. apply Rltb_true.
  rewrite Nat2Z.inj_succ, succ_IZR. lra.
Qed.

Lemma last_affine (f : Z -> R) (n : Z) (dflt : R) :
  (1 <= n)%Z -> last (map f (range n)) dflt = f (n - 1)%Z.
Proof.
  intro Hn. unfold range.
  replace (Z.to_nat n) with (S (Z.to_nat (n - 1))) by lia.
  rewrite seq_S, !map_app. cbn [map]. rewrite last_last. f_equal. lia.
Qed.



(** In exact arithmetic the sample of the claim has 30 timestamps too. *)
Lemma sample_count_exact :
  trunc (Rmin (IZR 200) (Rmax (IZR 10 * 3) (IZR 10))) = 30%Z.
Proof.
  replace (Rmin (IZR 200) (Rmax (IZR 10 * 3) (IZR 10))) with (IZR 30).
  - apply trunc_IZR.
  - rewrite Rmax_left by lra. rewrite Rmin_right by lra. lra.
Qed.

End SamplerExact.

(** Rounding shows in the last place: with 96 candidates on 100 seconds
    the last timestamp computed in binary64 is the float next above 99. *)
Remark last_timestamp_rounding_b64 :
  option_map (fun ts => last ts nan)
    (sample_candidate_timestamps (Some 100%float) 24 4%float 200)
  = Some (next_up 99%float).
Proof. vm_compute. reflexivity. Qed.

(** ** The album orchestrator *)

Module AlbumFacts.
Import Album.

#[local] Open Scope nat_scope.

Lemma count_app (p : event -> bool) (l1 l2 : list event) :
  count p (l1 ++ l2) = count p l1 + count p l2.
Proof. unfold count. now rewrite filter_app, length_app. Qed.

Lemma failures_of_app (l1 l2 : list event) :
  failures_of (l1 ++ l2) = failures_of l1 ++ failures_of l2.
Proof. unfold failures_of. apply flat_map_app. Qed.

Lemma failures_of_length (l : list event) :
  length (failures_of l) = count is_failed_plain_download l.
Proof.
  induction l as [ | e l IH]; [reflexivity | ].
  unfold count in *. cbn [failures_of flat_map filter].
  rewrite length_app. fold (failures_of l). rewrite IH.
  destruct e as [ | info [r | ] [f | ] | ]; reflexivity.
Qed.

Lemma retries_shape (records : list FailureRecord) (events : list event) :
  Forall2 retries_failure records events ->
  length events = length records /\
  forallb is_retry events = true /\
  forallb retry_counter_is_1 events = true.
Proof.
  induction 1 as [ | data e records events [result ->] _ (IHl & IHr & IHc)].
  - repeat split.
  - cbn. rewrite IHl, IHr, IHc. repeat split.
Qed.

Section RunFacts.
Variable extract_frames : bool.
Variable is_video_file : string -> bool.
Variable add_task : nat -> Z.

Notation step := (Album.step extract_frames is_video_file add_task).
Notation steps := (Album.steps extract_frames is_video_file add_task).
Notation run := (Album.run extract_frames is_video_file add_task).
Notation item_run := (Album.item_run extract_frames is_video_file add_task).

(** What one item task adds: its completion, no retry, and the failure
    it appends, if any. *)
Lemma item_run_effect (current_task : nat) (events : list event)
    (failure : option FailureRecord) (failed : list FailureRecord) :
  item_run current_task events failure ->
  count is_item_done events = 1 /\
  count is_retry events = 0 /\
  append_failure failed failure = failed ++ failures_of events.
Proof.
  destruct 1 as [ | link name Hx Hv | link name [f | ] Hplain]; cbn;
    rewrite ?app_nil_r; repeat split.
Qed.

Lemma enumerate_length (item_pages : list string) :
  length (enumerate item_pages) = length item_pages.
Proof. unfold enumerate. rewrite length_combine, length_seq. lia. Qed.

Lemma invariant_init (item_pages : list string) :
  invariant (length item_pages) (init item_pages).
Proof.
  unfold invariant, init. cbn. rewrite enumerate_length. repeat split; lia.
Qed.

Lemma invariant_step (m : nat) (s s' : state) :
  invariant m s -> step s s' -> invariant m s'.
Proof.
  intros Hinv Hstep.
  destruct Hstep as [before task page after failed trace0 events failure Hitem
                    | failed trace0
                    | tasks failed trace0 data rest result
                    | tasks failed trace0];
    unfold invariant in *; cbn [at_phase running failed_downloads trace] in *.
  - destruct Hinv as (Hdone & Hretry & Hfailed & Hle).
    destruct (item_run_effect task events failure failed Hitem)
      as (Hd & Hr & Hf).
    rewrite !count_app, Hd, Hr, Hf, failures_of_app, Hfailed.
    rewrite length_app in Hdone |- *. cbn [length] in Hdone.
    pose proof (failures_of_length events) as Hfl.
    assert (Hone : length (failures_of events) <= 1).
    { destruct Hitem as [ | link name Hx Hv | link name [f | ] Hplain]; cbn; lia. }
    repeat split; try lia.
  - destruct Hinv as (Hdone & Hretry & Hfailed & Hle).
    cbn [length] in Hdone. rewrite Nat.add_0_r in Hdone.
    destruct failed as [ | f failed].
    + split; [reflexivity | ]. exists trace0, [].
      rewrite app_nil_r, <- Hfailed. repeat split; try lia. constructor.
    + exists trace0, [], []. rewrite app_nil_r.
      repeat split; try lia; auto.
  - destruct Hinv as (initial & retries & handled & Htr & Hdone & Hretry
                      & Hle & Hfail & Hall).
    exists initial, (retries ++ [retry_event data result]), (handled ++ [data]).
    rewrite Htr, <- !app_assoc. repeat split; auto.
    apply Forall2_app; [assumption | ].
    constructor; [now exists result | constructor].
  - destruct Hinv as (initial & retries & handled & Htr & Hdone & Hretry
                      & Hle & Hfail & Hall).
    split; [reflexivity | ]. exists initial, retries.
    rewrite app_nil_r in Hfail. rewrite Hfail. repeat split; auto.
Qed.

Lemma invariant_steps (m : nat) (s s' : state) :
  invariant m s -> steps s s' -> invariant m s'.
Proof.
  intros Hinv Hsteps. induction Hsteps as [ | s1 s2 s3 _ IH Hstep].
  - assumption.
  - apply (invariant_step m s2 s3); [now apply IH | assumption].
Qed.

(** Every step brings the run closer to its end: no run goes on forever. *)
Lemma step_decreases (s s' : state) : step s s' -> distance s' < distance s.
Proof.
  destruct 1 as [before task page after failed trace0 events failure Hitem
                | failed trace0
                | tasks failed trace0 data rest result
                | tasks failed trace0];
    unfold distance; cbn [at_phase running failed_downloads].
  - rewrite !length_app. cbn [length].
    assert (length (append_failure failed failure) <= length failed + 1).
    { destruct failure; cbn; rewrite ?length_app; cbn; lia. }
    lia.
  - destruct failed; cbn; lia.
  - cbn. lia.
  - cbn. lia.
Qed.

Lemma steps_first (s1 s2 s3 : state) : step s1 s2 -> steps s2 s3 -> steps s1 s3.
Proof.
  intros H12 H23. induction H23 as [ | s2 s3 s4 _ IH H34].
  - eapply steps_next; [apply steps_refl | exact H12].
  - eapply steps_next; [exact (IH H12) | exact H34].
Qed.

(** From every state the run can be completed. *)
Lemma can_finish (s : state) :
  exists final, steps s final /\ at_phase final = Finished.
Proof.
  assert (Hretrying : forall rest tasks failed trace0,
    exists final,
      steps {| running := tasks; failed_downloads := failed; trace := trace0;
               at_phase := Retrying rest |} final /\
      at_phase final = Finished).
  { induction rest as [ | data rest IH]; intros tasks failed trace0.
    - eexists. split;
        [eapply steps_first; [apply step_clear | apply steps_refl] | reflexivity].
    - destruct (IH tasks failed (trace0 ++ [retry_event data None]))
        as (final & Hsteps & Hfin).
      exists final. split; [ | assumption].
      eapply steps_first; [apply step_retry | exact Hsteps]. }
  assert (Hgathering : forall tasks failed trace0,
    exists final,
      steps {| running := tasks; failed_downloads := failed; trace := trace0;
               at_phase := Gathering |} final /\
      at_phase final = Finished).
  { induction tasks as [ | [task page] tasks IH]; intros failed trace0.
    - destruct failed as [ | f failed].
      + eexists. split;
          [eapply steps_first; [apply step_gathered | apply steps_refl]
          | reflexivity].
      + destruct (Hretrying (f :: failed) [] (f :: failed) trace0)
          as (final & Hsteps & Hfin).
        exists final. split; [ | assumption].
        eapply steps_first; [apply step_gathered | exact Hsteps].
    - destruct (IH (append_failure failed None) (trace0 ++ [ItemDone task]))
        as (final & Hsteps & Hfin).
      exists final. split; [ | assumption].
      eapply steps_first; [ | exact Hsteps].
      apply (step_item _ _ _ [] task page tasks failed trace0
               [ItemDone task] None).
      constructor. }
  destruct s as [tasks failed trace0 [ | rest | ]].
  - apply Hgathering.
  - apply Hretrying.
  - eexists. split; [apply steps_refl | reflexivity].
Qed.

(** C3: in every complete run of [download_album] on [m] item pages the
    trace is the [m] item tasks followed by the retries; there is one
    retry for each plain download that failed, taken in the order the
    failures were appended, each with retry counter 1; and at the end
    the failure collection is empty, whatever the retries returned. *)
Theorem album_retry_pass (item_pages : list string) (final : state) :
  run item_pages final ->
  let m := length item_pages in
  failed_downloads final = [] /\
  exists initial retries,
    let w := count is_failed_plain_download initial in
    trace final = initial ++ retries /\
    count is_item_done initial = m /\
    count is_retry initial = 0 /\
    w <= m /\
    length retries = w /\
    forallb is_retry retries = true /\
    forallb retry_counter_is_1 retries = true /\
    Forall2 retries_failure (failures_of initial) retries.
Proof.
  intros [Hsteps Hfin] m.
  pose proof (invariant_steps m _ _ (invariant_init item_pages) Hsteps) as Hinv.
  unfold invariant in Hinv. rewrite Hfin in Hinv.
  destruct Hinv as (Hempty & initial & retries & Htr & Hdone & Hretry & Hle & Hall).
  split; [assumption | ]. exists initial, retries. cbn zeta.
  destruct (retries_shape _ _ Hall) as (Hlen & His & Hone).
  rewrite failures_of_length in Hlen. repeat split; auto.
Qed.

End RunFacts.
End AlbumFacts.

(** ** The perceptual hash *)

Section Matrices.
Context {A : Type}.

#[local] Open Scope nat_scope.

Lemma concat_length_rect (m : list (list A)) (c : nat) :
  width_is c m -> length (concat m) = length m * c.
Proof.
  induction 1 as [ | row m Hrow _ IH]; [reflexivity | ].
  cbn. rewrite length_app, IH, Hrow. reflexivity.
Qed.

(** Row-major flattening: entry [(i, j)] sits at position [i * c + j]. *)
Lemma concat_nth_rect (m : list (list A)) (c i j : nat) (d : A) :
  width_is c m -> i < length m -> j < c ->
  nth (i * c + j) (concat m) d = nth j (nth i m []) d.
Proof.
  intro Hm. revert i. induction Hm as [ | row m Hrow _ IH]; intros i Hi Hj.
  - cbn in Hi. lia.
  - destruct i as [ | i]; cbn [concat nth].
    + rewrite app_nth1 by lia. reflexivity.
    + replace (S i * c + j) with (length row + (i * c + j)) by (cbn; lia).
      rewrite app_nth2_plus. apply IH; [cbn in Hi; lia | assumption].
Qed.

Lemma width_is_firstn (m : list (list A)) (c n : nat) :
  width_is c m -> n <= c ->
  width_is n (map (firstn n) (firstn n m)).
Proof.
  intros Hm Hn. unfold width_is in *. rewrite Forall_map.
  apply Forall_forall. intros row Hrow.
  rewrite Forall_forall in Hm.
  rewrite length_firstn, (Hm row); [lia | ].
  rewrite <- (firstn_skipn n m). apply in_or_app. now left.
Qed.

Lemma nth_block (m : list (list A)) (n i j : nat) (d : A) :
  i < n -> j < n ->
  nth j (nth i (map (firstn n) (firstn n m)) []) d = nth j (nth i m []) d.
Proof.
  intros Hi Hj.
  assert (Hrow : nth i (map (firstn n) (firstn n m)) []
                 = firstn n (nth i (firstn n m) [])).
  { rewrite <- (map_nth (firstn n)). now rewrite firstn_nil. }
  rewrite Hrow, !nth_firstn.
  destruct (Nat.ltb_spec i n); [ | lia].
  destruct (Nat.ltb_spec j n); [reflexivity | lia].
Qed.

Lemma width_is_drop (m : list (list A)) (c : nat) :
  width_is c m -> width_is (c - 1) (map (skipn 1) (skipn 1 m)).
Proof.
  intros Hm. unfold width_is in *. rewrite Forall_map.
  apply Forall_forall. intros row Hrow.
  rewrite Forall_forall in Hm.
  rewrite length_skipn, (Hm row); [reflexivity | ].
  rewrite <- (firstn_skipn 1 m). apply in_or_app. now right.
Qed.

Lemma nth_drop (m : list (list A)) (i j : nat) (d : A) :
  nth j (nth i (map (skipn 1) (skipn 1 m)) []) d
  = nth (1 + j) (nth (1 + i) m []) d.
Proof.
  change (@nil A) with (skipn 1 (@nil A)) at 1.
  rewrite map_nth, !nth_skipn. reflexivity.
Qed.

End Matrices.

Section PHashFacts.
Context {F : Type} `{PyFloat F}.

Lemma has_shape_width (m : list (list F)) (rows cols : Z) :
  has_shape m rows cols -> width_is (Z.to_nat cols) m.
Proof.
  intros [_ Hrows]. unfold width_is. eapply Forall_impl; [ | exact Hrows].
  intros row Hrow. unfold len in Hrow. cbn beta in Hrow. lia.
Qed.

Lemma block_firstn (dct : list (list F)) (hash_size : Z) :
  0 <= hash_size ->
  block dct hash_size
  = map (firstn (Z.to_nat hash_size)) (firstn (Z.to_nat hash_size) dct).
Proof.
  intro Hh. unfold block. rewrite (slice_to_nonneg dct) by assumption.
  apply map_ext. intro row. now apply slice_to_nonneg.
Qed.

Lemma nth_map_rows {B : Type} (g : F -> B) (m : list (list F)) (c i j : nat)
    (d : F) (e : B) :
  width_is c m -> (i < length m)%nat -> (j < c)%nat ->
  nth j (nth i (map (map g) m) []) e = g (nth j (nth i m []) d).
Proof.
  intros Hm Hi Hj.
  assert (Hrow : nth i (map (map g) m) [] = map g (nth i m [])).
  { now rewrite <- (map_nth (map g)). }
  assert (Hlen : length (nth i m []) = c).
  { unfold width_is in Hm. rewrite Forall_forall in Hm.
    apply Hm. now apply nth_In. }
  rewrite Hrow, (nth_indep _ e (g d)) by (rewrite length_map; lia).
  apply map_nth.
Qed.

Section LibraryContracts.
Variable Image : Type.
Variable gray_resized : Image -> Z -> list (list F).
Variable dct2 : list (list F) -> list (list F).

(** Pillow returns an image of the requested size, and the DCT keeps the
    shape of its input. *)
Hypothesis gray_resized_shape :
  forall img size, 0 < size -> has_shape (gray_resized img size) size size.
Hypothesis dct2_shape :
  forall m rows cols, has_shape m rows cols -> has_shape (dct2 m) rows cols.


End LibraryContracts.
End PHashFacts.

(** *** The hash on sample coefficients *)


Lemma flat_image_shape (gray : float) (size : Z) :
  0 < size -> has_shape (Samples.flat_image gray size) size size.
Proof.
  intro Hsize. unfold has_shape, Samples.flat_image, len.
  rewrite repeat_length. split; [lia | ].
  apply Forall_forall. intros row Hrow.
  apply repeat_spec in Hrow. subst row. rewrite repeat_length. lia.
Qed.


(** *** A run of the orchestrator *)

Lemma album_run :
  Album.run false (fun _ => false) Z.of_nat
    AlbumSamples.pages AlbumSamples.album_end.
Proof.
  split; [ | reflexivity].
  eapply Album.steps_next; [eapply Album.steps_next;
    [eapply Album.steps_next; [eapply Album.steps_next;
      [eapply Album.steps_next; [apply Album.steps_refl | ] | ] | ] | ] | ].
  - eapply (Album.step_item _ _ _ [(0%nat, AlbumSamples.page0)]
              1%nat AlbumSamples.page1 []).
    apply (Album.item_download _ _ _ 1%nat AlbumSamples.link1
             AlbumSamples.name1 (Some AlbumSamples.lost)).
    reflexivity.
  - eapply (Album.step_item _ _ _ [] 0%nat AlbumSamples.page0 []).
    apply (Album.item_download _ _ _ 0%nat AlbumSamples.link0
             AlbumSamples.name0 None).
    reflexivity.
  - apply Album.step_gathered.
  - apply (Album.step_retry _ _ _ _ _ _ AlbumSamples.lost []
             (Some AlbumSamples.lost)).
  - apply Album.step_clear.
Qed.

Lemma album_retry_pass_witness :
  Album.failed_downloads AlbumSamples.album_end = [] /\
  exists initial retries,
    Album.trace AlbumSamples.album_end = initial ++ retries /\
    Album.count Album.is_item_done initial = 2%nat /\
    Album.count Album.is_retry initial = 0%nat /\
    (Album.count Album.is_failed_plain_download initial <= 2)%nat /\
    length retries = Album.count Album.is_failed_plain_download initial /\
    forallb Album.is_retry retries = true /\
    forallb Album.retry_counter_is_1 retries = true /\
    Forall2 Album.retries_failure (Album.failures_of initial) retries.
Proof.
  exact (AlbumFacts.album_retry_pass false (fun _ => false) Z.of_nat
           AlbumSamples.pages AlbumSamples.album_end album_run).
Defined.

(** * Further properties *)

(** ** The Hamming distance *)

Lemma hamming_comm (a b : list bool) : hamming a b = hamming b a.
Proof.
  revert b. induction a as [ | x a IH]; intros [ | y b]; cbn; try reflexivity.
  rewrite IH, xorb_comm. reflexivity.
Qed.

Lemma hamming_range (a b : list bool) :
  0 <= hamming a b <= Z.min (len a) (len b).
Proof.
  revert b. induction a as [ | x a IH]; intros [ | y b]; unfold len in *; cbn [hamming length];
    try lia.
  specialize (IH b). destruct (xorb x y); lia.
Qed.


(** X2: the distance of two hashes of one size lies between 0 and the
    number of bits, and it is 0 exactly when the hashes are equal. *)
Theorem hamming_zero_iff_equal (a b : list bool) :
  length a = length b ->
  0 <= hamming a b <= len a /\ (hamming a b = 0 <-> a = b).
Proof.
  intro Hlen. split.
  - pose proof (hamming_range a b). lia.
  - revert b Hlen. induction a as [ | x a IH]; intros [ | y b] Hlen;
      try discriminate; cbn [hamming].
    + tauto.
    + injection Hlen as Hlen. specialize (IH b Hlen).
      pose proof (hamming_range a b) as Hr.
      destruct x, y; cbn [xorb]; split; intro Heq;
        try discriminate; try lia.
      all: first [ f_equal; apply IH; lia
                 | injection Heq as Heq; apply IH in Heq; lia ].
Qed.

Lemma hamming_zero_iff_equal_witness :
  0 <= hamming (Samples.bits 20) (Samples.bits 40) <= len (Samples.bits 20) /\
  (hamming (Samples.bits 20) (Samples.bits 40) = 0
   <-> Samples.bits 20 = Samples.bits 40).
Proof. apply hamming_zero_iff_equal. reflexivity. Defined.

(** X3: the triangle inequality, for three hashes of one size. *)
Theorem hamming_triangle (a b c : list bool) :
  length a = length b -> length b = length c ->
  hamming a c <= hamming a b + hamming b c.
Proof.
  revert b c. induction a as [ | x a IH]; intros [ | y b] [ | z c] Hab Hbc;
    try discriminate; cbn [hamming]; try lia.
  injection Hab as Hab. injection Hbc as Hbc. specialize (IH b c Hab Hbc).
  destruct x, y, z; cbn [xorb]; lia.
Qed.

Lemma hamming_triangle_witness :
  hamming (Samples.bits 0) (Samples.bits 40)
  <= hamming (Samples.bits 0) (Samples.bits 20)
     + hamming (Samples.bits 20) (Samples.bits 40).
Proof. apply hamming_triangle; reflexivity. Defined.
(** ** More on the selector *)

Section Subsequences.
Context {A : Type}.

Lemma subsequence_refl (l : list A) : subsequence l l.
Proof.
  induction l; [apply subsequence_nil | now apply subsequence_keep].
Qed.

Lemma subsequence_nil_l (l : list A) : subsequence [] l.
Proof.
  induction l; [apply subsequence_nil | now apply subsequence_skip].
Qed.

Lemma subsequence_app (l1 l1' l2 l2' : list A) :
  subsequence l1 l1' -> subsequence l2 l2' -> subsequence (l1 ++ l2) (l1' ++ l2').
Proof.
  induction 1 as [ | x l1 l1' _ IH | x l1 l1' _ IH]; cbn; intro H2.
  - assumption.
  - apply subsequence_skip. now apply IH.
  - apply subsequence_keep. now apply IH.
Qed.

Lemma subsequence_prefix (l more : list A) : subsequence l (l ++ more).
Proof.
  rewrite <- (app_nil_r l) at 1.
  apply subsequence_app; [apply subsequence_refl | apply subsequence_nil_l].
Qed.

Lemma subsequence_trans (l1 l2 l3 : list A) :
  subsequence l1 l2 -> subsequence l2 l3 -> subsequence l1 l3.
Proof.
  intros H12 H23. revert l1 H12.
  induction H23 as [ | x l2 l3 _ IH | x l2 l3 _ IH]; intros l1 H12.
  - assumption.
  - apply subsequence_skip. now apply IH.
  - inversion H12; subst;
      [apply subsequence_skip | apply subsequence_keep]; now apply IH.
Qed.

Lemma subsequence_In (l1 l2 : list A) (x : A) :
  subsequence l1 l2 -> In x l1 -> In x l2.
Proof.
  induction 1 as [ | y l1 l2 _ IH | y l1 l2 _ IH]; cbn; intros Hx; auto.
  destruct Hx; auto.
Qed.

Lemma subsequence_Forall (P : A -> Prop) (l1 l2 : list A) :
  subsequence l1 l2 -> Forall P l2 -> Forall P l1.
Proof.
  intros Hs Hall. rewrite Forall_forall in *.
  intros x Hx. apply Hall. eapply subsequence_In; eassumption.
Qed.

Lemma subsequence_NoDup (l1 l2 : list A) :
  subsequence l1 l2 -> NoDup l2 -> NoDup l1.
Proof.
  induction 1 as [ | y l1 l2 Hs IH | y l1 l2 Hs IH]; intro Hnd.
  - constructor.
  - apply IH. now inversion Hnd.
  - inversion Hnd; subst. constructor; [ | now apply IH].
    intro Hy. eauto using subsequence_In.
Qed.

Lemma subsequence_sorted (R : A -> A -> Prop) (l1 l2 : list A) :
  subsequence l1 l2 -> StronglySorted R l2 -> StronglySorted R l1.
Proof.
  induction 1 as [ | y l1 l2 Hs IH | y l1 l2 Hs IH]; intro Hsorted.
  - constructor.
  - apply IH. now apply StronglySorted_inv in Hsorted.
  - apply StronglySorted_inv in Hsorted. destruct Hsorted as [Hrest Hy].
    constructor; [now apply IH | ]. eapply subsequence_Forall; eassumption.
Qed.

Lemma subsequence_pairs (R : A -> A -> Prop) (l1 l2 : list A) :
  subsequence l1 l2 -> ForallOrdPairs R l2 -> ForallOrdPairs R l1.
Proof.
  induction 1 as [ | y l1 l2 Hs IH | y l1 l2 Hs IH]; intro Hp.
  - constructor.
  - apply IH. now inversion Hp.
  - inversion Hp; subst. constructor; [ | now apply IH].
    eapply subsequence_Forall; eassumption.
Qed.

Lemma slice_to_subsequence (l : list A) (n : Z) : subsequence (slice_to l n) l.
Proof.
  destruct (slice_to_prefix l n) as [more Hm].
  rewrite Hm at 2. apply subsequence_prefix.
Qed.

Lemma pairs_snoc (R : A -> A -> Prop) (l : list A) (x : A) :
  ForallOrdPairs R l -> Forall (fun a => R a x) l -> ForallOrdPairs R (l ++ [x]).
Proof.
  induction 1 as [ | a l Ha Hl IH]; cbn; intro Hx.
  - repeat constructor.
  - inversion Hx; subst. constructor; [ | now apply IH].
    apply Forall_app. split; [assumption | now constructor].
Qed.

(** A symmetric relation that holds of all ordered pairs of a list holds
    of all ordered pairs of any rearrangement of it. *)
Lemma pairs_permutation (R : A -> A -> Prop) (l l' : list A) :
  (forall a b, R a b -> R b a) ->
  Permutation l l' -> ForallOrdPairs R l -> ForallOrdPairs R l'.
Proof.
  intros Hsym Hperm. induction Hperm as [ | x l l' Hperm IH | x y l | l l' l'' _ IH1 _ IH2];
    intro Hp.
  - constructor.
  - inversion Hp; subst. constructor; [ | now apply IH].
    eapply Permutation_Forall; eassumption.
  - inversion Hp as [ | a l0 Hy Hrest]; subst.
    inversion Hrest as [ | a l0 Hx Hl]; subst.
    inversion Hy; subst.
    constructor; [constructor; [now apply Hsym | assumption] | ].
    constructor; assumption.
  - auto.
Qed.

End Subsequences.

Section SelectorMore.
Context {F : Type} `{PyFloat F}.

Notation FC := (FrameCandidate F).

Lemma far_apart_sym (min_hamm : Z) (a b : FC) :
  far_apart min_hamm a b -> far_apart min_hamm b a.
Proof. unfold far_apart. now rewrite hamming_comm. Qed.

Lemma greedy_loop_subsequence (k min_hamm : Z) (rest chosen : list FC) :
  exists more,
    greedy_loop k min_hamm rest chosen = chosen ++ more /\ subsequence more rest.
Proof.
  revert chosen. induction rest as [ | c rest IH]; intro chosen; cbn.
  - exists []. rewrite app_nil_r. split; [reflexivity | apply subsequence_nil].
  - destruct (k <=? len chosen).
    + exists []. rewrite app_nil_r. split; [reflexivity | apply subsequence_nil_l].
    + destruct (is_diverse min_hamm c chosen).
      * destruct (IH (chosen ++ [c])) as (more & -> & Hsub).
        exists (c :: more). rewrite <- app_assoc.
        split; [reflexivity | now apply subsequence_keep].
      * destruct (IH chosen) as (more & -> & Hsub).
        exists more. split; [reflexivity | now apply subsequence_skip].
Qed.

Lemma greedy_select_subsequence (k min_hamm : Z) (sorted : list FC) :
  subsequence (greedy_select k min_hamm sorted) sorted.
Proof.
  destruct sorted as [ | best rest]; cbn; [apply subsequence_nil | ].
  destruct (greedy_loop_subsequence k min_hamm rest [best]) as (more & -> & Hsub).
  cbn. now apply subsequence_keep.
Qed.

Lemma conservative_trim_subsequence (k : Z) (chosen : list FC) :
  subsequence (conservative_trim k chosen) chosen.
Proof.
  destruct (conservative_trim_prefix k chosen) as [more Hm].
  rewrite Hm at 2. apply subsequence_prefix.
Qed.

Lemma select_subsequence (cands : list FC) (k min_hamm : Z) (bmin bmax thr : F) :
  subsequence (select_diverse_topk cands k min_hamm bmin bmax thr)
              (sort_by_quality (quality_filter cands k bmin bmax thr)).
Proof.
  unfold select_diverse_topk. destruct cands as [ | c0 cands].
  - apply subsequence_nil_l.
  - destruct (is_static _ _); [apply slice_to_subsequence | ].
    eapply subsequence_trans;
      [apply conservative_trim_subsequence | apply greedy_select_subsequence].
Qed.

Lemma quality_filter_subsequence (cands : list FC) (k : Z) (bmin bmax thr : F) :
  subsequence (quality_filter cands k bmin bmax thr) cands.
Proof.
  assert (Hfilter : forall p (l : list FC), subsequence (filter p l) l).
  { intros p l. induction l as [ | x l IH]; cbn; [apply subsequence_nil | ].
    destruct (p x); [now apply subsequence_keep | now apply subsequence_skip]. }
  unfold quality_filter.
  repeat match goal with
    | |- context [match filter ?p cands with _ => _ end] =>
        let E := fresh "E" in
        destruct (filter p cands) eqn:E; [ | rewrite <- E; apply Hfilter]
    end.
  apply slice_to_subsequence.
Qed.

Lemma greedy_loop_far (k min_hamm : Z) (rest chosen : list FC) :
  ForallOrdPairs (far_apart min_hamm) chosen ->
  ForallOrdPairs (far_apart min_hamm) (greedy_loop k min_hamm rest chosen).
Proof.
  revert chosen. induction rest as [ | c rest IH]; intros chosen Hp; cbn.
  - assumption.
  - destruct (k <=? len chosen); [assumption | ].
    destruct (is_diverse min_hamm c chosen) eqn:Hd; [ | now apply IH].
    apply IH. apply pairs_snoc; [assumption | ].
    apply Forall_forall. intros a Ha. apply far_apart_sym.
    unfold far_apart. now apply (is_diverse_spec min_hamm c chosen).
Qed.

(** X4: the selector returns frames of the input without repeating or
    reordering: its result is the quality-sorted list of the surviving
    candidates with some frames left out, so it is in descending quality
    order, every frame in it is a candidate, and it has no duplicates
    when the candidates have none. *)
Theorem selection_keeps_order `{!PyFloatOrder F} (cands : list FC)
    (k min_hamm : Z) (bmin bmax thr : F) :
  let result := select_diverse_topk cands k min_hamm bmin bmax thr in
  subsequence result (sort_by_quality (quality_filter cands k bmin bmax thr)) /\
  (forall c, In c result -> In c cands) /\
  StronglySorted not_below result /\
  (NoDup cands -> NoDup result).
Proof.
  intro result. pose proof (select_subsequence cands k min_hamm bmin bmax thr) as Hsub.
  fold result in Hsub. repeat split.
  - assumption.
  - intros c Hc. eapply quality_filter_In. apply sort_by_quality_In.
    eapply subsequence_In; eassumption.
  - eapply subsequence_sorted; [eassumption | apply sort_by_quality_sorted].
  - intro Hnd. eapply subsequence_NoDup; [eassumption | ].
    eapply Permutation_NoDup; [symmetry; apply sort_by_quality_perm | ].
    eapply subsequence_NoDup; [apply quality_filter_subsequence | eassumption].
Qed.

(** X5: on every path the frames returned are pairwise at least
    [min_hamm] bits apart. *)
Theorem selection_is_diverse (cands : list FC) (k min_hamm : Z)
    (bmin bmax thr : F) :
  ForallOrdPairs (far_apart min_hamm)
    (select_diverse_topk cands k min_hamm bmin bmax thr).
Proof.
  unfold select_diverse_topk. destruct cands as [ | c0 cands]; [constructor | ].
  destruct (is_static _ _).
  - destruct (sort_by_quality _) as [ | best rest].
    + rewrite slice_to_nil. constructor.
    + rewrite slice_to_cons, slice_to_nonneg by lia. repeat constructor.
  - eapply subsequence_pairs; [apply conservative_trim_subsequence | ].
    destruct (sort_by_quality _) as [ | best rest]; cbn; [constructor | ].
    apply greedy_loop_far. repeat constructor.
Qed.

(** X6: the relaxation of the filter never mixes tiers: when some
    candidate meets the quality threshold inside the brightness band,
    every frame returned does; when some candidate lies inside the band,
    every frame returned does. *)
Theorem selection_respects_tiers (cands : list FC) (k min_hamm : Z)
    (bmin bmax thr : F) :
  let result := select_diverse_topk cands k min_hamm bmin bmax thr in
  ((exists c, In c cands /\ passes bmin bmax thr c = true) ->
   forall r, In r result -> passes bmin bmax thr r = true) /\
  ((exists c, In c cands /\ in_band bmin bmax c = true) ->
   forall r, In r result -> in_band bmin bmax r = true).
Proof.
  intro result.
  assert (Hin : forall r, In r result ->
                  In r (quality_filter cands k bmin bmax thr)).
  { intros r Hr. apply sort_by_quality_In.
    eapply subsequence_In; [apply select_subsequence | exact Hr]. }
  assert (Hsome : forall (p : FC -> bool),
    (exists x, In x cands /\ p x = true) -> filter p cands <> []).
  { intros p (x & Hx & Hp) Hnil.
    rewrite filter_nil_iff in Hnil. rewrite (Hnil x Hx) in Hp. discriminate. }
  assert (Hweaker : forall t r, passes bmin bmax t r = true ->
                      in_band bmin bmax r = true).
  { intros t r Hp. unfold passes in Hp. now apply andb_true_iff in Hp. }
  split.
  - intros Hex r Hr. apply Hin in Hr. apply Hsome in Hex.
    unfold quality_filter in Hr.
    destruct (filter (passes bmin bmax thr) cands) eqn:E; [congruence | ].
    rewrite <- E in Hr. now apply filter_In in Hr.
  - intros Hex r Hr. apply Hin in Hr. apply Hsome in Hex.
    unfold quality_filter in Hr.
    destruct (filter (passes bmin bmax thr) cands) eqn:Ea;
      [ | rewrite <- Ea in Hr; apply filter_In in Hr; eapply Hweaker; apply Hr].
    destruct (filter (passes bmin bmax (fmul thr f0_5)) cands) eqn:Eb;
      [ | rewrite <- Eb in Hr; apply filter_In in Hr; eapply Hweaker; apply Hr].
    destruct (filter (in_band bmin bmax) cands) eqn:Ec; [congruence | ].
    rewrite <- Ec in Hr. now apply filter_In in Hr.
Qed.

End SelectorMore.

Lemma selection_keeps_order_witness :
  NoDup (select_diverse_topk Samples.sparse 13 12
           0.08%float 0.98%float 0.3%float).
Proof.
  apply (selection_keeps_order Samples.sparse 13 12 0.08%float 0.98%float 0.3%float).
  unfold Samples.sparse.
  repeat (constructor; [cbn; intuition discriminate | ]). constructor.
Defined.

Lemma selection_respects_tiers_witness :
  Forall (fun r => passes 0.08%float 0.98%float 0.3%float r = true)
    (select_diverse_topk Samples.varied 2 12 0.08%float 0.98%float 0.3%float).
Proof.
  apply Forall_forall.
  apply (selection_respects_tiers Samples.varied 2 12 0.08%float 0.98%float 0.3%float).
  exists (Samples.frame 1 2.0 0.5 0). split; [now left | reflexivity].
Defined.

Section FullYield.
Context {F : Type} `{PyFloat F}.

Notation FC := (FrameCandidate F).

Lemma pairs_middle {A : Type} (R : A -> A -> Prop) (l r : list A) (x : A) :
  ForallOrdPairs R (l ++ x :: r) -> Forall (fun a => R a x) l.
Proof.
  induction l as [ | a l IH]; cbn; intro Hp; [constructor | ].
  inversion Hp as [ | a0 l0 Ha Hl]; subst. constructor; [ | now apply IH].
  rewrite Forall_forall in Ha. apply Ha. apply in_or_app. right. now left.
Qed.

(** When all frames are far apart the loop takes them in order until the
    budget is used up. *)
Lemma greedy_loop_all_far (k min_hamm : Z) (rest chosen : list FC) :
  ForallOrdPairs (far_apart min_hamm) (chosen ++ rest) ->
  len chosen <= k ->
  greedy_loop k min_hamm rest chosen
  = chosen ++ firstn (Z.to_nat (k - len chosen)) rest.
Proof.
  revert chosen. induction rest as [ | c rest IH]; intros chosen Hp Hlen; cbn.
  - now rewrite firstn_nil, app_nil_r.
  - destruct (Z.leb_spec k (len chosen)) as [Hfull | Hroom].
    + replace (k - len chosen) with 0 by lia. cbn. now rewrite app_nil_r.
    + assert (Hd : is_diverse min_hamm c chosen = true).
      { apply is_diverse_spec. intros a Ha.
        pose proof (pairs_middle _ _ _ _ Hp) as Hall.
        rewrite Forall_forall in Hall. specialize (Hall a Ha).
        unfold far_apart in Hall. now rewrite hamming_comm. }
      rewrite Hd, IH.
      * rewrite len_app. unfold len at 2. cbn [length].
        replace (Z.to_nat (k - len chosen))
          with (S (Z.to_nat (k - (len chosen + Z.of_nat 1)))) by lia.
        cbn. now rewrite <- app_assoc.
      * now rewrite <- app_assoc.
      * rewrite len_app. unfold len at 2. cbn [length]. lia.
Qed.

Lemma sum_hamming_nonneg (ps : list (FC * FC)) : 0 <= sum_hamming ps.
Proof.
  induction ps as [ | p ps IH]; unfold sum_hamming in *; cbn; [lia | ].
  pose proof (hamming_range (hash (fst p)) (hash (snd p))). lia.
Qed.

Lemma sum_hamming_far (min_hamm : Z) (l : list FC) :
  ForallOrdPairs (far_apart min_hamm) l ->
  min_hamm * len (all_pairs l) <= sum_hamming (all_pairs l).
Proof.
  induction 1 as [ | x rest Hx _ IH]; [cbn; lia | ].
  cbn [all_pairs]. rewrite sum_hamming_app, len_app.
  assert (Hrow : min_hamm * len (map (pair x) rest)
                 <= sum_hamming (map (pair x) rest)).
  { clear IH. induction Hx as [ | y rest Hy _ IHx]; [cbn; lia | ].
    unfold len, sum_hamming in *. cbn [map fold_right length fst snd].
    unfold far_apart in Hy. lia. }
  lia.
Qed.

Lemma filter_all {A : Type} (p : A -> bool) (l : list A) :
  (forall x, In x l -> p x = true) -> filter p l = l.
Proof.
  induction l as [ | a l IH]; cbn; intro Hall; [reflexivity | ].
  rewrite (Hall a) by now left. f_equal. apply IH. intros x Hx. apply Hall. now right.
Qed.

End FullYield.

Section FullYieldExact.
Import Exact ExactFacts.

#[local] Open Scope R_scope.

Lemma never_static_when_far (sorted : list (FrameCandidate R)) (min_hamm : Z) :
  ForallOrdPairs (far_apart min_hamm) sorted ->
  is_static sorted min_hamm = false.
Proof.
  intro Hp. unfold is_static.
  destruct (Z.leb_spec 3 (len sorted)) as [Hlen | ]; [ | reflexivity].
  set (top := slice_to sorted (Z.min 8 (len sorted))).
  assert (Htop : ForallOrdPairs (far_apart min_hamm) top).
  { eapply subsequence_pairs; [apply slice_to_subsequence | exact Hp]. }
  assert (Hlen_top : (3 <= len top)%Z).
  { unfold top. rewrite slice_to_len by lia. lia. }
  pose proof (sum_hamming_far min_hamm top Htop) as Hsum.
  pose proof (sum_hamming_nonneg (all_pairs top)) as Hnn.
  pose proof (all_pairs_len top) as Hpairs.
  assert (Hpos : (0 < len (all_pairs top))%Z) by nia.
  unfold avg_distance. rewrite outer_pairs_spec. cbn [fst snd].
  rewrite !Z.add_0_l.
  destruct (Z.ltb_spec 0 (len (all_pairs top))); [ | lia].
  cbn [flt fmul fdiv of_int exact]. apply Rltb_false.
  assert (E4 : @f0_4 R exact = 0.4) by (unfold f0_4, decimal; cbn; lra).
  rewrite E4.
  set (total := sum_hamming (all_pairs top)) in *.
  set (pairs := len (all_pairs top)) in *.
  assert (HP : 0 < IZR pairs) by now apply IZR_lt.
  assert (Hq : IZR min_hamm <= IZR total / IZR pairs).
  { apply Rmult_le_reg_r with (IZR pairs); [assumption | ].
    unfold Rdiv. rewrite Rmult_assoc, Rinv_l by lra. rewrite Rmult_1_r.
    rewrite <- mult_IZR. now apply IZR_le. }
  assert (Hz : 0 <= IZR total / IZR pairs).
  { apply Rmult_le_reg_r with (IZR pairs); [assumption | ].
    unfold Rdiv. rewrite Rmult_assoc, Rinv_l by lra.
    rewrite Rmult_0_l, Rmult_1_r. now apply IZR_le. }
  destruct (Rle_dec 0 (IZR min_hamm)); lra.
Qed.


End FullYieldExact.



Section QualityScoreExact.
Import Exact ExactFacts.

#[local] Open Scope R_scope.

Variable Image : Type.
Variable image_laplacian_var : Image -> option R.
Variable image_gradient_magnitude : Image -> option R.

Notation score :=
  (compute_composite_quality_score Image image_laplacian_var
     image_gradient_magnitude).

Lemma score_value (img : Image) (l g : R) :
  image_laplacian_var img = Some l ->
  image_gradient_magnitude img = Some g ->
  score img = 0.4 * Rmin (l / 1000) 10 + 0.6 * Rmin (g / 10) 5.
Proof.
  intros Hl Hg. unfold compute_composite_quality_score.
  rewrite Hl, Hg. cbn zeta. rewrite !pymin_Rmin.
  cbn [fadd fmul fdiv of_int exact].
  assert (E4 : @f0_4 R exact = 0.4) by (unfold f0_4, decimal; cbn; lra).
  assert (E6 : @f0_6 R exact = 0.6) by (unfold f0_6, decimal; cbn; lra).
  now rewrite E4, E6.
Qed.


(** A failure of either metric gives the score 0. *)
Lemma composite_score_on_failure (img : Image) :
  image_laplacian_var img = None \/ image_gradient_magnitude img = None ->
  score img = 0.
Proof.
  unfold compute_composite_quality_score.
  intros [-> | ->]; [reflexivity | ]. now destruct (image_laplacian_var img).
Qed.

End QualityScoreExact.


Section ScheduleMore.
Import Exact ExactFacts SchedulePieces RoundFacts.

#[local] Open Scope R_scope.



End ScheduleMore.

Section SamplerMore.
Import Exact ExactFacts RoundFacts.

#[local] Open Scope R_scope.

Lemma range_In (n i : Z) : In i (range n) <-> (0 <= i < n)%Z.
Proof.
  unfold range. rewrite in_map_iff. split.
  - intros (j & <- & Hj). apply in_seq in Hj. lia.
  - intro Hi. exists (Z.to_nat i). split; [lia | ]. apply in_seq. lia.
Qed.

Lemma trunc_mono (x y : R) : x <= y -> (trunc x <= trunc y)%Z.
Proof.
  intro Hxy. unfold trunc, Zceil.
  destruct (Rle_dec 0 x), (Rle_dec 0 y); try lra.
  - now apply Zfloor_le.
  - assert (0 <= Zfloor (- x))%Z by (apply Zfloor_lub; lra).
    assert (0 <= Zfloor y)%Z by (apply Zfloor_lub; lra). lia.
  - assert (Zfloor (- y) <= Zfloor (- x))%Z by (apply Zfloor_le; lra). lia.
Qed.


End SamplerMore.


Module AlbumMore.
Import Album AlbumFacts AlbumRuns.

#[local] Open Scope nat_scope.

Lemma done_tasks_app (l1 l2 : list event) :
  done_tasks (l1 ++ l2) = done_tasks l1 ++ done_tasks l2.
Proof. unfold done_tasks. apply flat_map_app. Qed.

Section RunMore.
Variable extract_frames : bool.
Variable is_video_file : string -> bool.
Variable add_task : nat -> Z.

Notation step := (Album.step extract_frames is_video_file add_task).
Notation steps := (Album.steps extract_frames is_video_file add_task).
Notation run := (Album.run extract_frames is_video_file add_task).
Notation item_run := (Album.item_run extract_frames is_video_file add_task).
Notation steps_in := (AlbumRuns.steps_in extract_frames is_video_file add_task).
Notation branch_matches := (AlbumRuns.branch_matches extract_frames is_video_file).
Notation tasks_invariant := (AlbumRuns.tasks_invariant extract_frames is_video_file).

Lemma steps_in_distance (n : nat) (s s' : state) :
  steps_in n s s' -> n + distance s' <= distance s.
Proof.
  induction 1 as [ | n s1 s2 s3 _ IH Hstep]; [lia | ].
  pose proof (step_decreases _ _ _ _ _ Hstep). lia.
Qed.


Lemma map_fst_zip {A B : Type} (l : list A) (l' : list B) :
  length l = length l' -> map fst (combine l l') = l.
Proof.
  revert l'. induction l as [ | a l IH]; intros [ | b l'] Hlen;
    try reflexivity; try discriminate.
  cbn. f_equal. apply IH. now injection Hlen.
Qed.

Lemma tasks_invariant_init (item_pages : list string) :
  tasks_invariant (length item_pages) (init item_pages).
Proof.
  unfold tasks_invariant, init, enumerate. cbn.
  rewrite map_fst_zip by now rewrite length_seq.
  split; [reflexivity | split; [ | reflexivity]].
  intro Hne. now contradiction Hne.
Qed.

Lemma item_run_tasks (current_task : nat) (events : list event)
    (failure : option FailureRecord) :
  item_run current_task events failure ->
  done_tasks events = [current_task] /\
  forallb branch_matches events = true.
Proof.
  destruct 1 as [ | link name Hx Hv | link name failed Hplain]; cbn.
  - split; reflexivity.
  - rewrite Hx, Hv. split; reflexivity.
  - rewrite Hplain. split; reflexivity.
Qed.

Lemma tasks_invariant_step (m : nat) (s s' : state) :
  tasks_invariant m s -> step s s' -> tasks_invariant m s'.
Proof.
  intros (Hperm & Hrun & Hbr) Hstep.
  destruct Hstep as [before task page after failed trace0 events failure Hitem
                    | failed trace0
                    | tasks failed trace0 data rest result
                    | tasks failed trace0];
    unfold tasks_invariant in *;
    cbn [at_phase running failed_downloads trace] in *.
  - destruct (item_run_tasks _ _ _ Hitem) as [Hdone Hb].
    rewrite done_tasks_app, Hdone, forallb_app, Hbr, Hb.
    split; [ | split; [intro Hne; now contradiction Hne | reflexivity]].
    rewrite map_app in Hperm |- *. cbn [map fst] in Hperm.
    rewrite <- app_assoc. cbn [app].
    etransitivity; [ | exact Hperm].
    apply Permutation_app_head. apply Permutation_middle.
  - split; [assumption | split; [intros _; reflexivity | assumption]].
  - rewrite forallb_app, Hbr, done_tasks_app. cbn. rewrite app_nil_r.
    split; [assumption | split; [ | reflexivity]].
    intros _. apply Hrun. discriminate.
  - split; [assumption | split; [ | assumption]].
    intros _. apply Hrun. discriminate.
Qed.

Lemma tasks_invariant_steps (m : nat) (s s' : state) :
  tasks_invariant m s -> steps s s' -> tasks_invariant m s'.
Proof.
  intros Hinv Hsteps. induction Hsteps as [ | s1 s2 s3 _ IH Hstep].
  - assumption.
  - apply (tasks_invariant_step m s2 s3); [now apply IH | assumption].
Qed.

(** X13: in a complete run of [download_album], under every
    interleaving, each item page's task returns exactly once: the task
    numbers in the trace are a rearrangement of [0, ..., m - 1].  No
    task is left running, and every item was handled on the branch its
    file name selects: frames were extracted only of videos with
    extraction switched on, and no such video was downloaded. *)
Theorem every_item_handled_once (item_pages : list string) (final : state) :
  run item_pages final ->
  Permutation (done_tasks (trace final)) (seq 0 (length item_pages)) /\
  NoDup (done_tasks (trace final)) /\
  running final = [] /\
  forallb branch_matches (trace final) = true.
Proof.
  intros [Hsteps Hfin].
  destruct (tasks_invariant_steps _ _ _
              (tasks_invariant_init item_pages) Hsteps) as (Hperm & Hrun & Hbr).
  assert (Hnone : running final = []).
  { apply Hrun. rewrite Hfin. discriminate. }
  rewrite Hnone, app_nil_r in Hperm.
  split; [assumption | split; [ | split; assumption]].
  eapply Permutation_NoDup; [symmetry; exact Hperm | apply seq_NoDup].
Qed.

End RunMore.
End AlbumMore.

Lemma album_run_counted :
  AlbumRuns.steps_in false (fun _ => false) Z.of_nat 5
    (Album.init AlbumSamples.pages) AlbumSamples.album_end.
Proof.
  eapply AlbumRuns.steps_in_next; [eapply AlbumRuns.steps_in_next;
    [eapply AlbumRuns.steps_in_next; [eapply AlbumRuns.steps_in_next;
      [eapply AlbumRuns.steps_in_next; [apply AlbumRuns.steps_in_zero | ] | ]
      | ] | ] | ].
  - eapply (Album.step_item _ _ _ [(0%nat, AlbumSamples.page0)]
              1%nat AlbumSamples.page1 []).
    apply (Album.item_download _ _ _ 1%nat AlbumSamples.link1
             AlbumSamples.name1 (Some AlbumSamples.lost)).
    reflexivity.
  - eapply (Album.step_item _ _ _ [] 0%nat AlbumSamples.page0 []).
    apply (Album.item_download _ _ _ 0%nat AlbumSamples.link0
             AlbumSamples.name0 None).
    reflexivity.
  - apply Album.step_gathered.
  - apply (Album.step_retry _ _ _ _ _ _ AlbumSamples.lost []
             (Some AlbumSamples.lost)).
  - apply Album.step_clear.
Qed.


Lemma every_item_handled_once_witness :
  Permutation (AlbumRuns.done_tasks (Album.trace AlbumSamples.album_end))
    (seq 0 (length AlbumSamples.pages)) /\
  NoDup (AlbumRuns.done_tasks (Album.trace AlbumSamples.album_end)) /\
  Album.running AlbumSamples.album_end = [] /\
  forallb (AlbumRuns.branch_matches false (fun _ => false))
    (Album.trace AlbumSamples.album_end) = true.
Proof.
  exact (AlbumMore.every_item_handled_once false (fun _ => false) Z.of_nat
           AlbumSamples.pages AlbumSamples.album_end album_run).
Defined.

Module VideoNamesFacts.
Import VideoNames.

Notation valid := (fun c : N => is_invalid c = false).

Lemma replaced_valid (c : N) :
  is_invalid (if is_invalid c then underscore else c) = false.
Proof. destruct (is_invalid c) eqn:E; [reflexivity | exact E]. Qed.

Lemma replace_valid (name : str) :
  Forall valid name ->
  map (fun c => if is_invalid c then underscore else c) name = name.
Proof.
  induction 1 as [ | c name Hc _ IH]; cbn [map]; [reflexivity | ].
  cbv beta in Hc. now rewrite Hc, IH.
Qed.

Lemma replace_fixed (name : str) :
  map (fun c => if is_invalid c then underscore else c) name = name ->
  Forall valid name.
Proof.
  induction name as [ | c name IH]; cbn; intro Heq; constructor.
  - injection Heq as Hc _. rewrite <- Hc. apply replaced_valid.
  - apply IH. now injection Heq.
Qed.

(** X14: [sanitize_video_folder_name] returns the first
    [min(50, len(name))] characters of the name with each of the nine
    characters of the pattern replaced by an underscore: the result
    holds none of them, is at most 50 characters long, is left as it is
    by a second call, and equals the name exactly when the name was
    already free of these characters and at most 50 characters long. *)
Theorem sanitize_video_folder_name_spec (name : str) :
  let result := sanitize_video_folder_name name in
  len result = Z.min 50 (len name) /\
  Forall valid result /\
  sanitize_video_folder_name result = result /\
  (result = name <-> len name <= 50 /\ Forall valid name).
Proof.
  intro result. subst result. unfold sanitize_video_folder_name. cbn zeta.
  set (sanitized := map (fun c => if is_invalid c then underscore else c) name).
  assert (Hlen : len sanitized = len name).
  { unfold len, sanitized. now rewrite length_map. }
  assert (Hvalid : Forall valid sanitized).
  { unfold sanitized. apply Forall_forall. intros c Hc.
    apply in_map_iff in Hc. destruct Hc as (c0 & <- & _). apply replaced_valid. }
  destruct (Z.ltb_spec 50 (len sanitized)) as [Hlong | Hshort].
  - assert (Hcut : len (slice_to sanitized 50) = 50)
      by (rewrite slice_to_len by lia; lia).
    assert (Hcut_valid : Forall valid (slice_to sanitized 50)).
    { apply Forall_forall. intros c Hc. apply slice_to_In in Hc.
      rewrite Forall_forall in Hvalid. now apply Hvalid. }
    split; [lia | ]. split; [assumption | ]. split.
    + rewrite (replace_valid _ Hcut_valid), Hcut. reflexivity.
    + split; [ | lia]. intro Heq. rewrite Heq in Hcut. lia.
  - split; [lia | ]. split; [assumption | ]. split.
    + rewrite (replace_valid _ Hvalid).
      destruct (Z.ltb_spec 50 (len sanitized)); [lia | reflexivity].
    + split.
      * intro Heq. split; [lia | ]. now apply replace_fixed.
      * intros [_ Hname]. now apply replace_valid.
Qed.

End VideoNamesFacts.

Module FrameFilesFacts.
Import Stdlib.Strings.Ascii Stdlib.Strings.String FrameFiles.

#[local] Open Scope string_scope.

Lemma append_inv_head (s a b : string) : s ++ a = s ++ b -> a = b.
Proof.
  induction s as [ | c s IH]; cbn; intro Heq; [assumption | ].
  injection Heq as Heq. now apply IH.
Qed.

Lemma occurs_append (c : ascii) (a b : string) :
  occurs c (a ++ b) = occurs c a || occurs c b.
Proof.
  induction a as [ | x a IH]; cbn; [reflexivity | ].
  now rewrite IH, orb_assoc.
Qed.

(** Two strings free of [c] that are followed by [c] in equal strings
    are equal. *)
Lemma split_at_first (c : ascii) (a b x y : string) :
  occurs c a = false -> occurs c b = false ->
  a ++ String c x = b ++ String c y -> a = b.
Proof.
  revert b. induction a as [ | a0 a IH]; intros [ | b0 b]; cbn;
    intros Ha Hb Heq.
  - reflexivity.
  - injection Heq as Hc _. subst b0. rewrite Ascii.eqb_refl in Hb. discriminate.
  - injection Heq as Hc _. subst a0. rewrite Ascii.eqb_refl in Ha. discriminate.
  - injection Heq as H0 Heq. subst b0.
    apply orb_false_iff in Ha, Hb. f_equal.
    apply IH; [apply Ha | apply Hb | exact Heq].
Qed.

Lemma digits_no_underscore (d : Decimal.uint) :
  occurs "_" (DecimalString.NilEmpty.string_of_uint d) = false.
Proof. induction d; cbn; auto. Qed.

Lemma zeros_no_underscore (n : nat) : occurs "_" (zeros n) = false.
Proof. induction n; cbn; auto. Qed.

Lemma decimal_of_nat_no_underscore (n : nat) :
  occurs "_" (decimal_of_nat n) = false.
Proof.
  unfold decimal_of_nat, DecimalString.NilZero.string_of_uint.
  destruct (Nat.to_uint n) eqn:E;
    try (rewrite <- E; apply digits_no_underscore).
  reflexivity.
Qed.

Lemma pad3_no_underscore (i : nat) : occurs "_" (pad3 i) = false.
Proof.
  unfold pad3. cbn zeta.
  now rewrite occurs_append, zeros_no_underscore, decimal_of_nat_no_underscore.
Qed.

Lemma value_zeros (n : nat) (s : string) : value (zeros n ++ s) = value s.
Proof.
  induction n as [ | n IH]; [reflexivity | ].
  cbn [zeros append]. unfold value in *.
  cbn [DecimalString.NilEmpty.uint_of_string].
  rewrite <- IH.
  destruct (DecimalString.NilEmpty.uint_of_string (zeros n ++ s)); reflexivity.
Qed.

Lemma value_decimal (n : nat) : value (decimal_of_nat n) = Some n.
Proof.
  unfold value, decimal_of_nat, DecimalString.NilZero.string_of_uint.
  destruct (Nat.to_uint n) eqn:E;
    [ cbn; f_equal; rewrite <- (DecimalNat.Unsigned.of_to n), E; reflexivity
    | rewrite <- E, DecimalString.NilEmpty.usu; cbn; f_equal;
      apply DecimalNat.Unsigned.of_to .. ].
Qed.

Lemma value_pad3 (i : nat) : value (pad3 i) = Some i.
Proof. unfold pad3. cbn zeta. now rewrite value_zeros, value_decimal. Qed.

(** The counter can be read back from a file name. *)
Lemma frame_filename_index (prefix : string) (i j : nat) (ts ts' : Z) :
  frame_filename prefix i ts = frame_filename prefix j ts' -> i = j.
Proof.
  unfold frame_filename. intro Heq.
  apply append_inv_head in Heq. cbn [append] in Heq. injection Heq as Heq.
  apply split_at_first in Heq; try apply pad3_no_underscore.
  pose proof (value_pad3 i) as Hi. rewrite Heq, value_pad3 in Hi.
  now injection Hi.
Qed.

Lemma pad3_examples :
  map pad3 [1; 42; 123; 1234]%nat = ["001"; "042"; "123"; "1234"].
Proof. reflexivity. Qed.

End FrameFilesFacts.

Section PipelineFacts.
Context {F : Type} `{PyFloat F}.

Variable Image : Type.
Variable log10 : F -> F.
Variable tools_found : bool.
Variable run_ffprobe_duration : option F.
Variable ffmpeg_output : F -> option (list Byte.byte).
Variable image_open : list Byte.byte -> option Image.
Variable image_laplacian_var : Image -> option F.
Variable image_gradient_magnitude : Image -> option F.
Variable image_brightness : Image -> option F.
Variable image_phash : Image -> option (list bool).

Notation candidate_at :=
  (candidate_at Image ffmpeg_output image_open image_laplacian_var
     image_gradient_magnitude image_brightness image_phash).
Notation grab_candidates :=
  (grab_candidates Image ffmpeg_output image_open image_laplacian_var
     image_gradient_magnitude image_brightness image_phash).
Notation ffmpeg_grab_frame_at := (ffmpeg_grab_frame_at ffmpeg_output).

Lemma subsequence_length {A : Type} (l1 l2 : list A) :
  subsequence l1 l2 -> (length l1 <= length l2)%nat.
Proof. induction 1; cbn; lia. Qed.

Lemma candidate_at_spec (time : F) (c : FrameCandidate F) :
  candidate_at time = Some c ->
  t c = time /\ ffmpeg_grab_frame_at time = Some (jpeg c) /\ jpeg c <> [].
Proof.
  unfold candidate_at.
  destruct (ffmpeg_grab_frame_at time) as [[ | b bytes] | ]; try discriminate.
  destruct (image_open _); try discriminate.
  destruct (image_laplacian_var _); try discriminate.
  destruct (image_brightness _); try discriminate.
  destruct (image_phash _); try discriminate.
  intro Hc. injection Hc as <-. cbn. repeat split. discriminate.
Qed.

Lemma grab_candidates_In (cand_ts : list F) (c : FrameCandidate F) :
  In c (grab_candidates cand_ts) ->
  In (t c) cand_ts /\ ffmpeg_grab_frame_at (t c) = Some (jpeg c) /\ jpeg c <> [].
Proof.
  unfold grab_candidates. intro Hc. apply in_flat_map in Hc.
  destruct Hc as (time & Htime & Hc).
  destruct (candidate_at time) as [c' | ] eqn:E; [ | contradiction].
  destruct Hc as [<- | []].
  destruct (candidate_at_spec _ _ E) as (Ht & Hgrab & Hne).
  rewrite Ht. auto.
Qed.

Lemma grab_candidates_len (cand_ts : list F) :
  len (grab_candidates cand_ts) <= len cand_ts.
Proof.
  unfold len, grab_candidates.
  induction cand_ts as [ | time cand_ts IH]; cbn [flat_map length]; [lia | ].
  rewrite length_app. destruct (candidate_at time); cbn [length]; lia.
Qed.

Lemma selected_len (cands : list (FrameCandidate F)) (k min_hamm : Z)
    (bmin bmax thr : F) :
  len (select_diverse_topk cands k min_hamm bmin bmax thr) <= len cands.
Proof.
  pose proof (subsequence_length _ _
                (select_subsequence cands k min_hamm bmin bmax thr)) as H1.
  pose proof (subsequence_length _ _
                (quality_filter_subsequence cands k bmin bmax thr)) as H2.
  pose proof (sort_by_quality_len (quality_filter cands k bmin bmax thr)) as H3.
  unfold len in *. lia.
Qed.

Lemma selected_In (cands : list (FrameCandidate F)) (k min_hamm : Z)
    (bmin bmax thr : F) (c : FrameCandidate F) :
  In c (select_diverse_topk cands k min_hamm bmin bmax thr) -> In c cands.
Proof.
  intro Hc.
  apply (subsequence_In _ _ c (select_subsequence cands k min_hamm bmin bmax thr))
    in Hc.
  rewrite sort_by_quality_In in Hc.
  exact (subsequence_In _ _ c
           (quality_filter_subsequence cands k bmin bmax thr) Hc).
Qed.

(** What the saving loop writes: the bytes of the selected frames in
    their order, under names numbered from [i]. *)
Lemma save_frames_spec (prefix : String.string) (selected : list (FrameCandidate F))
    (i : nat) (saved : list (String.string * list Byte.byte)) :
  save_frames prefix i selected = Some saved ->
  map snd saved = map jpeg selected /\
  exists stamps,
    length stamps = length selected /\
    map fst saved
    = map (fun p => FrameFiles.frame_filename prefix (fst p) (snd p))
          (combine (seq i (length selected)) stamps).
Proof.
  revert i saved. induction selected as [ | c rest IH]; intros i saved; cbn.
  - intro Hs. injection Hs as <-. split; [reflexivity | ]. now exists [].
  - destruct (pyround _) as [ts_ms | ]; [ | discriminate].
    destruct (save_frames prefix (S i) rest) as [more | ] eqn:E; [ | discriminate].
    intro Hs. injection Hs as <-.
    destruct (IH _ _ E) as (Hbytes & stamps & Hlen & Hnames).
    split; [cbn; now rewrite Hbytes | ].
    exists (ts_ms :: stamps). cbn. now rewrite Hlen, Hnames.
Qed.

Lemma numbered_names_NoDup (prefix : String.string) (n i : nat) (stamps : list Z) :
  NoDup (map (fun p => FrameFiles.frame_filename prefix (fst p) (snd p))
             (combine (seq i n) stamps)).
Proof.
  revert i stamps. induction n as [ | n IH]; intros i stamps; [constructor | ].
  destruct stamps as [ | ts stamps]; [constructor | ].
  cbn. constructor; [ | apply IH].
  intro Hin. apply in_map_iff in Hin. destruct Hin as ([j ts'] & Heq & Hj).
  cbn in Heq. apply FrameFilesFacts.frame_filename_index in Heq. subst j.
  apply in_combine_l in Hj. apply in_seq in Hj. lia.
Qed.

(** X15: every frame [extract_frames_from_video] saves is the non-empty
    output of [ffmpeg] for one of the sampled timestamps; no more frames
    are saved than timestamps were sampled, nor more than the frame
    budget when that is at least one; the budget is the schedule's and
    the timestamps are the sampler's for that budget. *)
Theorem saved_frames_are_grabbed (target_frames : option Z) (cand_mult : F)
    (cand_max min_hamm : Z) (bright_min bright_max : F)
    (prefix : String.string) (saved : list (String.string * list Byte.byte)) :
  extract_frames_from_video Image log10 tools_found run_ffprobe_duration
    ffmpeg_output image_open image_laplacian_var image_gradient_magnitude
    image_brightness image_phash
    target_frames cand_mult cand_max min_hamm bright_min bright_max prefix
  = Some saved ->
  tools_found = true /\
  exists max_frames cand_ts,
    compute_max_frames_by_schedule log10 run_ffprobe_duration target_frames
    = Some max_frames /\
    sample_candidate_timestamps run_ffprobe_duration max_frames cand_mult
      cand_max = Some cand_ts /\
    len saved <= len cand_ts /\
    (1 <= max_frames -> len saved <= max_frames) /\
    Forall (fun file =>
              snd file <> [] /\
              exists time, In time cand_ts /\
                           ffmpeg_grab_frame_at time = Some (snd file))
           saved.
Proof.
  unfold extract_frames_from_video.
  destruct tools_found; [cbn [negb] | discriminate].
  destruct (compute_max_frames_by_schedule _ _ _) as [max_frames | ];
    [ | discriminate].
  destruct (sample_candidate_timestamps _ _ _ _) as [cand_ts | ] eqn:Esample;
    [ | discriminate].
  cbn zeta. intro Hsave. split; [reflexivity | ].
  exists max_frames, cand_ts.
  destruct (save_frames_spec _ _ _ _ Hsave) as (Hbytes & _).
  set (selected := select_diverse_topk (grab_candidates cand_ts) max_frames
                     min_hamm bright_min bright_max f0_3) in *.
  assert (Hcount : len saved = len selected).
  { unfold len. apply (f_equal (@length _)) in Hbytes.
    rewrite !length_map in Hbytes. now rewrite Hbytes. }
  split; [reflexivity | ]. split; [exact Esample | ]. split.
  { rewrite Hcount. etransitivity; [apply selected_len | ].
    apply grab_candidates_len. }
  split.
  { intro Hk. rewrite Hcount.
    now apply select_diverse_topk_within_budget. }
  apply Forall_forall. intros file Hfile.
  assert (Hdata : In (snd file) (map jpeg selected)).
  { rewrite <- Hbytes. now apply in_map. }
  apply in_map_iff in Hdata. destruct Hdata as (c & Hc & Hsel).
  apply selected_In, grab_candidates_In in Hsel.
  destruct Hsel as (Htime & Hgrab & Hne). rewrite <- Hc.
  split; [assumption | ]. now exists (t c).
Qed.

(** X16: the files [extract_frames_from_video] saves are numbered
    [001, 002, ...] in the order of the selection, each name being
    [{prefix}_{i:03d}_t{ts_ms}ms.jpg], and no two of them have the same
    name: no saved frame overwrites another. *)
Theorem saved_frames_have_distinct_names (target_frames : option Z)
    (cand_mult : F) (cand_max min_hamm : Z) (bright_min bright_max : F)
    (prefix : String.string) (saved : list (String.string * list Byte.byte)) :
  extract_frames_from_video Image log10 tools_found run_ffprobe_duration
    ffmpeg_output image_open image_laplacian_var image_gradient_magnitude
    image_brightness image_phash
    target_frames cand_mult cand_max min_hamm bright_min bright_max prefix
  = Some saved ->
  NoDup (map fst saved) /\
  exists stamps,
    length stamps = length saved /\
    map fst saved
    = map (fun p => FrameFiles.frame_filename prefix (fst p) (snd p))
          (combine (seq 1 (length saved)) stamps).
Proof.
  unfold extract_frames_from_video.
  destruct tools_found; [cbn [negb] | discriminate].
  destruct (compute_max_frames_by_schedule _ _ _) as [max_frames | ];
    [ | discriminate].
  destruct (sample_candidate_timestamps _ _ _ _) as [cand_ts | ];
    [ | discriminate].
  cbn zeta. intro Hsave.
  destruct (save_frames_spec _ _ _ _ Hsave) as (Hbytes & stamps & Hlen & Hnames).
  assert (Hcount : length saved = length (select_diverse_topk
            (grab_candidates cand_ts) max_frames min_hamm bright_min
            bright_max f0_3)).
  { apply (f_equal (@length _)) in Hbytes. now rewrite !length_map in Hbytes. }
  split.
  - rewrite Hnames. apply numbered_names_NoDup.
  - exists stamps. rewrite Hcount. split; assumption.
Qed.

End PipelineFacts.

Lemma pipeline_run : PipelineSamples.run = Some PipelineSamples.saved.
Proof. vm_compute. reflexivity. Qed.

Lemma saved_frames_are_grabbed_witness :
  true = true /\
  exists max_frames cand_ts,
    compute_max_frames_by_schedule PipelineSamples.log10_unused
      (Some 20%float) None = Some max_frames /\
    sample_candidate_timestamps (Some 20%float) max_frames 4%float 200
    = Some cand_ts /\
    len PipelineSamples.saved <= len cand_ts /\
    (1 <= max_frames -> len PipelineSamples.saved <= max_frames) /\
    Forall (fun file =>
              snd file <> [] /\
              exists time, In time cand_ts /\
                           ffmpeg_grab_frame_at PipelineSamples.scene time
                           = Some (snd file))
           PipelineSamples.saved.
Proof.
  exact (saved_frames_are_grabbed Byte.byte PipelineSamples.log10_unused true
           (Some 20%float) PipelineSamples.scene PipelineSamples.open
           PipelineSamples.laplacian PipelineSamples.gradient
           PipelineSamples.bright PipelineSamples.fingerprint
           None 4%float 200 12 0.08%float 0.98%float
           PipelineSamples.prefix PipelineSamples.saved pipeline_run).
Defined.

Lemma saved_frames_have_distinct_names_witness :
  NoDup (map fst PipelineSamples.saved) /\
  exists stamps,
    length stamps = length PipelineSamples.saved /\
    map fst PipelineSamples.saved
    = map (fun p => FrameFiles.frame_filename PipelineSamples.prefix
                      (fst p) (snd p))
          (combine (seq 1 (length PipelineSamples.saved)) stamps).
Proof.
  exact (saved_frames_have_distinct_names Byte.byte
           PipelineSamples.log10_unused true
           (Some 20%float) PipelineSamples.scene PipelineSamples.open
           PipelineSamples.laplacian PipelineSamples.gradient
           PipelineSamples.bright PipelineSamples.fingerprint
           None 4%float 200 12 0.08%float 0.98%float
           PipelineSamples.prefix PipelineSamples.saved pipeline_run).
Defined.

Section PipelineExact.
Import Exact ExactFacts SchedulePieces RoundFacts.

Variable Image : Type.
Variable run_ffprobe_duration : option R.
Variable ffmpeg_output : R -> option (list Byte.byte).
Variable image_open : list Byte.byte -> option Image.
Variable image_laplacian_var : Image -> option R.
Variable image_gradient_magnitude : Image -> option R.
Variable image_brightness : Image -> option R.
Variable image_phash : Image -> option (list bool).

Lemma save_frames_total (prefix : String.string)
    (selected : list (FrameCandidate R)) (i : nat) :
  exists saved,
    save_frames prefix i selected = Some saved /\
    length saved = length selected.
Proof.
  revert i. induction selected as [ | c rest IH]; intro i; cbn.
  - now exists [].
  - destruct (IH (S i)) as (more & -> & Hlen).
    eexists. split; [reflexivity | ]. cbn. now rewrite Hlen.
Qed.

Lemma sample_count_le (duration : option R) (target_frames max_candidates : Z)
    (multiplier : R) :
  exists ts : list R,
    sample_candidate_timestamps duration target_frames multiplier
      max_candidates = Some ts /\
    len ts <= Z.max 1 max_candidates.
Proof.
  unfold sample_candidate_timestamps.
  rewrite pymax_Rmax, pymin_Rmin.
  cbn [to_int fle fadd fsub fmul fdiv of_int exact].
  set (n := trunc _).
  assert (Hcap : n <= max_candidates).
  { unfold n. rewrite <- (trunc_IZR max_candidates) at 2.
    apply trunc_mono, Rmin_l. }
  assert (Hpseudo : len (map IZR (range n)) <= Z.max 1 max_candidates).
  { unfold len. rewrite length_map, range_length. lia. }
  destruct duration as [d | ]; [ | eexists; split; [reflexivity | exact Hpseudo]].
  destruct (Rleb d 0); [eexists; split; [reflexivity | exact Hpseudo] | ].
  destruct (Z.leb_spec n 1).
  - eexists. split; [reflexivity | ]. unfold len. cbn. lia.
  - eexists. split; [reflexivity | ].
    unfold len. rewrite length_map, range_length. lia.
Qed.


End PipelineExact.

Module ScraperFacts.
Import Stdlib.Strings.String Scraper.

Lemma mem_In (url : string) (seen : list string) :
  mem url seen = true <-> In url seen.
Proof.
  unfold mem. rewrite existsb_exists. split.
  - intros (x & Hx & Heq). apply String.eqb_eq in Heq. now subst.
  - intro Hin. exists url. split; [assumption | apply String.eqb_refl].
Qed.

Lemma prefix_append (a b : string) : prefix a (String.append a b) = true.
Proof.
  induction a as [ | c a IH]; cbn; [now destruct b | ].
  destruct (Ascii.ascii_dec c c); [assumption | contradiction].
Qed.

Lemma prefix_trans (a b c : string) :
  prefix a b = true -> prefix b c = true -> prefix a c = true.
Proof.
  revert b c. induction a as [ | x a IH]; intros b c Hab Hbc.
  - now destruct c.
  - destruct b as [ | y b]; [discriminate | ].
    destruct c as [ | z c]; [discriminate | ].
    cbn in *. destruct (Ascii.ascii_dec x y); [subst | discriminate].
    destruct (Ascii.ascii_dec y z); [ | discriminate]. now apply (IH b c).
Qed.

Section ScraperFacts.
Variable album_domain : string.
Variable fetch_page : Z -> option (list (option string)).
Variable strip : string -> string.
Variable int_of_str : string -> option Z.

Notation normalize_album_url := (Scraper.normalize_album_url album_domain).
Notation extract_loop := (Scraper.extract_loop album_domain).
Notation extract_album_urls := (Scraper.extract_album_urls album_domain).
Notation accepted := (Scraper.accepted album_domain).
Notation scrape_loop := (Scraper.scrape_loop album_domain fetch_page).
Notation scrape_search_results :=
  (Scraper.scrape_search_results album_domain fetch_page).
Notation albums_of_pages := (Scraper.albums_of_pages album_domain fetch_page).
Notation ask_album_count := (Scraper.ask_album_count strip int_of_str).
Notation albums_to_process :=
  (Scraper.albums_to_process album_domain fetch_page strip).

(** X18: when the album domain is an absolute URL
    ([startswith("http")]), [normalize_album_url] returns an absolute URL
    for every [href] that starts with [http] or with a slash, and a
    second call changes nothing. *)
Theorem normalize_album_url_idempotent (href : string) :
  prefix "http" album_domain = true ->
  normalize_album_url (normalize_album_url href) = normalize_album_url href /\
  (prefix "http" href = true \/ prefix "/" href = true ->
   prefix "http" (normalize_album_url href) = true).
Proof.
  intro Hdomain. unfold Scraper.normalize_album_url.
  destruct (prefix "http" href) eqn:Ehttp.
  - rewrite Ehttp. split; [reflexivity | intros _; reflexivity].
  - destruct (prefix "/" href) eqn:Eslash.
    + assert (Habs : prefix "http" (String.append album_domain href) = true).
      { eapply prefix_trans; [exact Hdomain | apply prefix_append]. }
      rewrite Habs. split; [reflexivity | intros _; reflexivity].
    + rewrite Ehttp, Eslash. split; [reflexivity | ].
      intros [Hh | Hs]; discriminate.
Qed.

Lemma extract_loop_step (href : string) (anchors : list (option string))
    (found_urls seen : list string) :
  extract_loop (Some href :: anchors) found_urls seen
  = if accepted href && negb (mem (normalize_album_url href) seen)
    then extract_loop anchors (found_urls ++ [normalize_album_url href])
           (normalize_album_url href :: seen)
    else extract_loop anchors found_urls seen.
Proof.
  cbn [Scraper.extract_loop]. unfold Scraper.accepted.
  destruct (String.eqb href ""); [reflexivity | ].
  destruct (prefix "javascript:" href); reflexivity.
Qed.

Lemma extract_loop_spec (anchors : list (option string))
    (found_urls seen : list string) :
  (forall url, In url seen <-> In url found_urls) ->
  NoDup found_urls ->
  NoDup (extract_loop anchors found_urls seen) /\
  (exists more,
     extract_loop anchors found_urls seen = found_urls ++ more /\
     subsequence more (map normalize_album_url (filter accepted (hrefs anchors)))) /\
  (forall url, In url (extract_loop anchors found_urls seen) <->
     In url found_urls \/
     In url (map normalize_album_url (filter accepted (hrefs anchors)))).
Proof.
  revert found_urls seen.
  induction anchors as [ | anchor anchors IH]; intros found_urls seen Hseen Hnd.
  - cbn. split; [assumption | ]. split.
    + exists []. rewrite app_nil_r. split; [reflexivity | apply subsequence_nil].
    + intro url. tauto.
  - destruct anchor as [href | ]; [ | exact (IH _ _ Hseen Hnd)].
    rewrite extract_loop_step.
    cbn [hrefs flat_map app filter]. fold (hrefs anchors).
    destruct (accepted href) eqn:Eacc; [ | exact (IH _ _ Hseen Hnd)].
    cbn [andb map].
    destruct (mem (normalize_album_url href) seen) eqn:Emem; cbn [negb].
    + apply mem_In, Hseen in Emem.
      destruct (IH _ _ Hseen Hnd) as (Hnd' & (more & Hres & Hsub) & Hin).
      split; [assumption | ]. split.
      * exists more. split; [assumption | now apply subsequence_skip].
      * intro url. rewrite Hin. cbn [In]. split; [tauto | ].
        intros [Hf | [<- | Hm]]; auto.
    + assert (Hnew : ~ In (normalize_album_url href) found_urls).
      { intro Hin. apply Hseen, mem_In in Hin. congruence. }
      assert (Hseen' : forall url,
                In url (normalize_album_url href :: seen) <->
                In url (found_urls ++ [normalize_album_url href])).
      { intro url. rewrite in_app_iff. cbn [In]. rewrite Hseen. tauto. }
      assert (Hnd' : NoDup (found_urls ++ [normalize_album_url href])).
      { apply NoDup_app; [assumption | repeat constructor; intros [] | ].
        intros url Hf [<- | []]. contradiction. }
      destruct (IH _ _ Hseen' Hnd') as (Hnd'' & (more & Hres & Hsub) & Hin).
      split; [assumption | ]. split.
      * exists (normalize_album_url href :: more). split.
        -- rewrite Hres, <- app_assoc. reflexivity.
        -- now apply subsequence_keep.
      * intro url. rewrite Hin, in_app_iff. cbn [In]. tauto.
Qed.

(** X19: [extract_album_urls] returns no URL twice; it returns exactly
    the normalized [href] values that are not empty, do not start with
    [javascript:] and contain the album marker once normalized, in the
    order of the anchors; so every URL returned contains the marker. *)
Theorem extract_album_urls_spec (anchors : list (option string)) :
  let candidates := map normalize_album_url (filter accepted (hrefs anchors)) in
  NoDup (extract_album_urls anchors) /\
  subsequence (extract_album_urls anchors) candidates /\
  (forall url, In url (extract_album_urls anchors) <-> In url candidates) /\
  Forall (fun url => contains "/a/" url = true) (extract_album_urls anchors).
Proof.
  intro candidates. unfold Scraper.extract_album_urls.
  destruct (extract_loop_spec anchors [] [])
    as (Hnd & (more & Hres & Hsub) & Hin);
    [intro url; tauto | constructor | ].
  cbn [app] in Hres. split; [assumption | ]. split.
  - rewrite Hres. exact Hsub.
  - split.
    + intro url. rewrite Hin. cbn [In]. tauto.
    + apply Forall_forall. intros url Hurl. apply Hin in Hurl.
      destruct Hurl as [[] | Hurl]. apply in_map_iff in Hurl.
      destruct Hurl as (href & <- & Hhref). apply filter_In in Hhref.
      destruct Hhref as [_ Hacc]. unfold Scraper.accepted in Hacc.
      now apply andb_true_iff in Hacc.
Qed.

Lemma scrape_loop_prefix (max_albums : option Z) (pages : list Z)
    (all_albums : list string) :
  exists rest,
    all_albums ++ albums_of_pages pages
    = scrape_loop max_albums pages all_albums ++ rest.
Proof.
  revert all_albums. induction pages as [ | page pages IH]; intro all_albums.
  - exists []. reflexivity.
  - cbn [Scraper.scrape_loop Scraper.albums_of_pages flat_map].
    fold (albums_of_pages pages).
    destruct (fetch_page page) as [anchors | ]; [ | apply IH].
    destruct (extract_album_urls anchors) as [ | album albums] eqn:Ealbums.
    + cbn [app]. now exists (albums_of_pages pages).
    + cbn zeta. rewrite app_assoc.
      destruct max_albums as [n | ]; [ | apply IH].
      destruct (negb (n =? 0) && (n <=? len (all_albums ++ album :: albums)));
        [ | apply IH].
      destruct (slice_to_prefix (all_albums ++ album :: albums) n) as [more Hm].
      exists (more ++ albums_of_pages pages).
      rewrite app_assoc, <- Hm. reflexivity.
Qed.

Lemma scrape_loop_cap (n : Z) (pages : list Z) (all_albums : list string) :
  1 <= n -> len all_albums < n ->
  len (scrape_loop (Some n) pages all_albums) <= n.
Proof.
  intro Hn. revert all_albums.
  induction pages as [ | page pages IH]; intros all_albums Hlen;
    cbn [Scraper.scrape_loop]; [lia | ].
  destruct (fetch_page page) as [anchors | ]; [ | now apply IH].
  destruct (extract_album_urls anchors) as [ | album albums]; [lia | ].
  cbn zeta.
  destruct (Z.eqb_spec n 0); [lia | ]. cbn [negb andb].
  destruct (Z.leb_spec n (len (all_albums ++ album :: albums))).
  - rewrite slice_to_len by lia. lia.
  - now apply IH.
Qed.

(** X20: [scrape_search_results] returns a prefix of the albums of the
    pages [1 .. max_pages] that could be fetched, in page order (a page
    that fails is skipped), so every URL it returns contains the album
    marker; with [max_albums >= 1] it returns at most [max_albums] URLs;
    with [max_pages <= 0] it returns none. *)
Theorem scrape_search_results_spec (max_pages : Z) (max_albums : option Z) :
  let result := scrape_search_results max_pages max_albums in
  (exists rest, albums_of_pages (range_from 1 (max_pages + 1)) = result ++ rest) /\
  Forall (fun url => contains "/a/" url = true) result /\
  (forall n, max_albums = Some n -> 1 <= n -> len result <= n) /\
  (max_pages <= 0 -> result = []).
Proof.
  intro result. subst result. unfold Scraper.scrape_search_results.
  destruct (scrape_loop_prefix max_albums (range_from 1 (max_pages + 1)) [])
    as [rest Hrest].
  cbn [app] in Hrest.
  split; [now exists rest | ]. split.
  - apply Forall_forall. intros url Hurl.
    assert (Hin : In url (albums_of_pages (range_from 1 (max_pages + 1)))).
    { rewrite Hrest. apply in_or_app. now left. }
    unfold Scraper.albums_of_pages in Hin. apply in_flat_map in Hin.
    destruct Hin as (page & _ & Hpage).
    destruct (fetch_page page) as [anchors | ]; [ | contradiction].
    pose proof (extract_loop_spec anchors [] []) as Hspec.
    destruct Hspec as (_ & _ & Hin); [intro u; tauto | constructor | ].
    apply Hin in Hpage. destruct Hpage as [[] | Hpage].
    apply in_map_iff in Hpage. destruct Hpage as (href & <- & Hhref).
    apply filter_In in Hhref. destruct Hhref as [_ Hacc].
    unfold Scraper.accepted in Hacc. now apply andb_true_iff in Hacc.
  - split.
    + intros n -> Hn. apply scrape_loop_cap; [assumption | ].
      unfold len. cbn. lia.
    + intro Hp. unfold range_from, range.
      replace (Z.to_nat (max_pages + 1 - 1)) with 0%nat by lia. reflexivity.
Qed.

Lemma ask_album_count_range (lines : list string) (n : Z) :
  ask_album_count lines = Some n -> 1 <= n <= 100.
Proof.
  induction lines as [ | line lines IH]; cbn; [discriminate | ].
  destruct (String.eqb (strip line) "").
  - intro Hn. injection Hn as <-. lia.
  - destruct (int_of_str (strip line)) as [count | ]; [ | exact IH].
    destruct (Z.leb_spec 1 count); [ | exact IH].
    destruct (Z.leb_spec count 100); [ | exact IH].
    cbn. intro Hn. injection Hn as <-. lia.
Qed.

(** X21: the number [ask_album_count] stores lies between 1 and 100,
    whatever the user types, and [run_download] then goes through at
    most that many albums, in search mode as in browse mode. *)
Theorem at_most_the_asked_albums (lines : list string) (max_albums : Z)
    (use_search : bool) (search_term : string)
    (urls_file : option (list string)) :
  ask_album_count lines = Some max_albums ->
  1 <= max_albums <= 100 /\
  len (albums_to_process use_search search_term max_albums urls_file)
  <= max_albums.
Proof.
  intro Hask. pose proof (ask_album_count_range _ _ Hask) as Hrange.
  split; [assumption | ]. unfold Scraper.albums_to_process.
  destruct (use_search && negb (String.eqb search_term "")).
  - unfold Scraper.scrape_search_results.
    apply scrape_loop_cap; [lia | unfold len; cbn; lia].
  - destruct urls_file as [file_lines | ]; [ | unfold len; cbn; lia].
    cbn zeta. rewrite slice_to_len by lia. lia.
Qed.

End ScraperFacts.
End ScraperFacts.

Lemma normalize_album_url_idempotent_witness :
  Scraper.normalize_album_url ScraperSamples.domain
    (Scraper.normalize_album_url ScraperSamples.domain ScraperSamples.relative)
  = Scraper.normalize_album_url ScraperSamples.domain ScraperSamples.relative /\
  (String.prefix ScraperSamples.http ScraperSamples.relative = true \/
   String.prefix ScraperSamples.slash ScraperSamples.relative = true ->
   String.prefix ScraperSamples.http
     (Scraper.normalize_album_url ScraperSamples.domain ScraperSamples.relative)
   = true).
Proof.
  apply (ScraperFacts.normalize_album_url_idempotent ScraperSamples.domain
           ScraperSamples.relative).
  reflexivity.
Defined.

Lemma at_most_the_asked_albums_witness :
  1 <= 2 <= 100 /\
  len (Scraper.albums_to_process ScraperSamples.domain ScraperSamples.site
         (fun s => s) true ScraperSamples.term 2 None) <= 2.
Proof.
  apply (ScraperFacts.at_most_the_asked_albums ScraperSamples.domain
           ScraperSamples.site (fun s => s) ScraperSamples.read_int
           ScraperSamples.typed 2 true ScraperSamples.term None).
  reflexivity.
Defined.

Section BudgetBound.
Context {F : Type} `{PyFloat F}.

(** X22: for every frame budget [k], zero and negative ones included,
    [select_diverse_topk] returns at most [max(1, k)] frames, and never
    more frames than there are candidates. *)
Theorem selection_budget_bound (cands : list (FrameCandidate F))
    (k min_hamm : Z) (bmin bmax thr : F) :
  len (select_diverse_topk cands k min_hamm bmin bmax thr) <= Z.max 1 k /\
  len (select_diverse_topk cands k min_hamm bmin bmax thr) <= len cands.
Proof.
  split; [ | apply selected_len].
  unfold select_diverse_topk.
  destruct cands as [ | c0 cands]; [unfold len; cbn; lia | ].
  destruct (is_static _ _).
  - rewrite slice_to_len by lia. lia.
  - etransitivity; [apply conservative_trim_len | ].
    etransitivity; [apply greedy_select_len | ]. lia.
Qed.

End BudgetBound.

Section PipelineYield.
Import Exact ExactFacts SchedulePieces RoundFacts.

Variable Image : Type.
Variable run_ffprobe_duration : option R.
Variable ffmpeg_output : R -> option (list Byte.byte).
Variable image_open : list Byte.byte -> option Image.
Variable image_laplacian_var : Image -> option R.
Variable image_gradient_magnitude : Image -> option R.
Variable image_brightness : Image -> option R.
Variable image_phash : Image -> option (list bool).

Lemma grab_candidates_nil (cand_ts : list R) :
  grab_candidates Image ffmpeg_output image_open image_laplacian_var
    image_gradient_magnitude image_brightness image_phash cand_ts = [] <->
  forall time, In time cand_ts ->
    candidate_at Image ffmpeg_output image_open image_laplacian_var
      image_gradient_magnitude image_brightness image_phash time = None.
Proof.
  unfold grab_candidates. induction cand_ts as [ | time cand_ts IH]; cbn.
  - split; [intros _ time [] | reflexivity].
  - destruct (candidate_at _ _ _ _ _ _ _ time) as [c | ] eqn:E; cbn.
    + split; [discriminate | ]. intro Hall.
      specialize (Hall time (or_introl eq_refl)). congruence.
    + rewrite IH. split.
      * intros Hall time' [<- | Hin]; [exact E | now apply Hall].
      * intros Hall time' Hin. apply Hall. now right.
Qed.

Lemma selected_nil (cands : list (FrameCandidate R)) (k min_hamm : Z)
    (bmin bmax thr : R) :
  1 <= k ->
  select_diverse_topk cands k min_hamm bmin bmax thr = [] <-> cands = [].
Proof.
  intro Hk. split; [ | intros ->; reflexivity].
  destruct cands as [ | c0 cands]; [reflexivity | ]. intro Hnil.
  assert (Hkept : quality_filter (c0 :: cands) k bmin bmax thr <> [])
    by (apply quality_filter_nonempty; [discriminate | assumption]).
  destruct (sort_by_quality (quality_filter (c0 :: cands) k bmin bmax thr))
    as [ | best rest] eqn:Hsorted.
  - exfalso. apply Hkept.
    pose proof (sort_by_quality_len
                  (quality_filter (c0 :: cands) k bmin bmax thr)) as Hlen.
    rewrite Hsorted in Hlen.
    destruct (quality_filter (c0 :: cands) k bmin bmax thr);
      [reflexivity | unfold len in Hlen; cbn in Hlen; lia].
  - destruct (select_diverse_topk_head cands k min_hamm bmin bmax thr
                c0 best rest Hsorted) as [more Hmore].
    rewrite Hmore in Hnil. discriminate.
Qed.


End PipelineYield.

Section MedianExact.
Import Exact ExactFacts.

#[local] Open Scope R_scope.

Lemma insert_asc_perm (x : R) (l : list R) :
  Permutation (x :: l) (insert_asc x l).
Proof.
  induction l as [ | y l IH]; cbn; [reflexivity | ].
  destruct (Rltb x y); [reflexivity | ].
  etransitivity; [apply perm_swap | now apply perm_skip].
Qed.

Lemma insert_asc_sorted (x : R) (l : list R) :
  StronglySorted Rle l -> StronglySorted Rle (insert_asc x l).
Proof.
  induction 1 as [ | y l Hl IH Hy]; cbn.
  - repeat constructor.
  - destruct (Rltb x y) eqn:E.
    + apply Rltb_true in E. constructor; [now constructor | ].
      constructor; [lra | ].
      eapply Forall_impl; [ | exact Hy]. cbn. intros z Hz. lra.
    + apply Rltb_false in E. constructor; [assumption | ].
      apply (Permutation_Forall (insert_asc_perm x l)).
      now constructor.
Qed.

Lemma sort_asc_spec (l : list R) :
  Permutation l (sort_asc l) /\ StronglySorted Rle (sort_asc l).
Proof.
  unfold sort_asc.
  assert (Hgen : forall acc,
            StronglySorted Rle acc ->
            Permutation (l ++ acc)
              (fold_left (fun acc x => insert_asc x acc) l acc) /\
            StronglySorted Rle
              (fold_left (fun acc x => insert_asc x acc) l acc)).
  { induction l as [ | x l IH]; intros acc Hacc; cbn.
    - split; [reflexivity | assumption].
    - destruct (IH (insert_asc x acc) (insert_asc_sorted x acc Hacc))
        as [Hperm Hsorted].
      split; [ | assumption].
      etransitivity; [ | exact Hperm].
      etransitivity; [apply Permutation_middle | ].
      apply Permutation_app_head, insert_asc_perm. }
  destruct (Hgen [] (SSorted_nil _)) as [Hperm Hsorted].
  now rewrite app_nil_r in Hperm.
Qed.

Lemma count_above_perm (m : R) (l l' : list R) :
  Permutation l l' -> count_above m l = count_above m l'.
Proof.
  unfold count_above.
  induction 1 as [ | x l l' _ IH | x y l | l l' l'' _ IH1 _ IH2];
    cbn [filter].
  - reflexivity.
  - destruct (flt m x); cbn [length]; now rewrite IH.
  - destruct (flt m x), (flt m y); reflexivity.
  - now rewrite IH1.
Qed.

Lemma count_above_le (m : R) (l : list R) :
  (count_above m l <= length l)%nat.
Proof. unfold count_above. apply filter_length_le. Qed.

(** In a sorted list no value up to one that is at most [m] is above
    [m]. *)
Lemma count_above_sorted (m : R) (s : list R) (k : nat) :
  StronglySorted Rle s -> (k < length s)%nat -> nth k s 0 <= m ->
  (count_above m s <= length s - k - 1)%nat.
Proof.
  intro Hs. revert k.
  induction Hs as [ | x s Hs IH Hx]; intros k Hk Hm; cbn in Hk; [lia | ].
  assert (Hlow : Rltb m x = false).
  { apply Rltb_false. destruct k as [ | k]; [exact Hm | ].
    cbn in Hm. rewrite Forall_forall in Hx.
    assert (x <= nth k s 0) by (apply Hx, nth_In; lia). lra. }
  assert (Hcons : count_above m (x :: s) = count_above m s).
  { unfold count_above. cbn [filter]. change (flt m x) with (Rltb m x).
    now rewrite Hlow. }
  rewrite Hcons. cbn [length]. destruct k as [ | k].
  - pose proof (count_above_le m s). lia.
  - cbn in Hm. assert (Hk' : (k < length s)%nat) by lia.
    specialize (IH k Hk' Hm). lia.
Qed.

Lemma sorted_nth_le (s : list R) (i j : nat) (d : R) :
  StronglySorted Rle s -> (i <= j)%nat -> (j < length s)%nat ->
  nth i s d <= nth j s d.
Proof.
  intro Hs. revert i j.
  induction Hs as [ | x s Hs IH Hx]; intros i j Hij Hj; cbn in Hj; [lia | ].
  destruct i as [ | i], j as [ | j]; cbn; try lia; try lra.
  - rewrite Forall_forall in Hx. apply Hx, nth_In. lia.
  - apply IH; lia.
Qed.


End MedianExact.

Module ArgsFacts.
Import Args.

(** X25: with the [args] object that [create_args_object] builds,
    [execute_item_download] never takes the legacy branch that calls
    [extract_frames_from_video]: the object has no attribute
    [memory_extraction], whose default is true, so a video is handed to
    [extract_frames_smart] with the defaults (no frame limit, quality
    threshold 0.3, candidate multiplier 3.0) when extraction is on, and
    everything else is downloaded; the attribute [frames_per_video] is
    never read. *)
Theorem interactive_args_select_memory_extraction (c : config)
    (is_video : bool) :
  item_action (create_args_object c) is_video
  = (if config_extract_frames c && is_video
     then ExtractFramesSmart VNone (VFloat 0.3) (VFloat 3.0)
     else Download) /\
  forall target_frames,
    item_action (create_args_object c) is_video
    <> ExtractFramesFromVideo target_frames.
Proof.
  unfold item_action, create_args_object, getattr. cbn.
  destruct (config_extract_frames c), is_video; cbn;
    (split; [reflexivity | intros target_frames; discriminate]).
Qed.

End ArgsFacts.
